(** * fastapi-easy-crud: the repository layer and the route handlers

    A shallow embedding of [fastapi_easy_crud/repository.py] and of the
    handler closures of [fastapi_easy_crud/routes.py].

    The program is glue between an ORM and a web framework.  The glue is
    embedded function by function, under the names it has in the source
    ([transactional], [add], [delete], [update], [patch], [get], [find],
    [default_post], ...).  The two libraries are not part of the
    repository; the part of their documented behaviour that the glue relies
    on is modelled in the modules [Orm] (sessions over one table) and
    [Web] (what an exception leaving a handler becomes on the wire).

    Python keyword arguments are typed here: a [kwargs] dictionary is a
    finite map from names to values, and the optional [session] argument is
    an [option].  Field names are assumed distinct from the parameter names
    of the methods ([self], [session], [keys], [item]). *)

From Stdlib Require Import ZArith.
From stdpp Require Import gmap strings list fin_maps.

Local Open Scope Z_scope.

(** ** Values, records, model types *)

(** A column value.  [VNone] is Python's [None] (SQL NULL). *)
Inductive value : Type :=
| VNone
| VInt (n : Z)
| VStr (s : string)
| VBool (b : bool).

#[global] Instance value_eq_dec : EqDecision value.
Proof. solve_decision. Defined.

(** A dictionary of named values: a model instance seen as its attributes,
    a [keys] dictionary, a request body, the [kwargs] of a call. *)
Abbreviation dict := (gmap string value).

(** [getattr(item, k)]; an attribute that was never set reads as [None],
    the default of every field of a table model. *)
Definition attr (item : dict) (k : string) : value := default VNone (item !! k).

(** What [inspect(model_type)] exposes: the mapped columns ([attrs]) and
    the names of the primary-key columns ([primary_key]). *)
Record ModelType : Type := {
  __name__ : string;
  attrs : list string;
  primary_key : list string
}.

(** The backing store as seen through an [Engine]: besides the connection
    it stands for the constraints of the schema.  [violation tbl r] is the
    message of the DBAPI error ([e.orig.args[0]]) when storing [r] next to
    the rows [tbl] breaks a uniqueness or integrity constraint. *)
Record Engine : Type := {
  violation : list dict → dict → option string
}.

(** ** Exceptions, results, the state *)

Inductive exn : Type :=
| IntegrityError (orig_args0 : string)
| NotFoundError
| ValueError
| IndexError
| TypeError
| AttributeError
| InvalidRequestError
| StaleDataError.

#[global] Instance exn_eq_dec : EqDecision exn.
Proof. solve_decision. Defined.

(** What a repository method hands back: [None], one instance, or a list
    of instances.  The decorator dispatches on this ([if res],
    [type(res) == list]). *)
Inductive pyres : Type :=
| RNone
| RItem (r : dict)
| RList (l : list dict).

#[global] Instance pyres_eq_dec : EqDecision pyres.
Proof. solve_decision. Defined.

(** Python truthiness of a result: [None] and the empty list are false; a
    model instance is true. *)
Definition truthy (res : pyres) : bool :=
  match res with
  | RNone => false
  | RItem _ => true
  | RList l => negb (bool_decide (l = []))
  end.

(** A unit of work recorded by a session and sent to the store on flush. *)
Inductive change : Type :=
| Insert (r : dict)
| Modify (key : list value) (r : dict)
| Remove (key : list value).

(** Session life-cycle events, kept in order of occurrence. *)
Inductive event : Type :=
| Opened (s : nat)
| Committed (s : nat)
| Closed (s : nat).

#[global] Instance event_eq_dec : EqDecision event.
Proof. solve_decision. Defined.

(** The state the program runs in: the committed rows of the entity's
    table, the pending changes of each session, the next session handle and
    the log of session events. *)
Record world : Type := {
  table : list dict;
  sessions : gmap nat (list change);
  next_session : nat;
  log : list event
}.

(** ** The monad of the embedding: state and exceptions *)

Inductive outcome (A : Type) : Type :=
| Return (a : A)
| Raise (e : exn).
Arguments Return {A} a.
Arguments Raise {A} e.

Definition M (A : Type) : Type := world → outcome A * world.

#[global] Instance M_ret : MRet M := λ A a w, (Return a, w).

#[global] Instance M_bind : MBind M := λ A B f m w,
  match m w with
  | (Return a, w') => f a w'
  | (Raise e, w') => (Raise e, w')
  end.

Definition raise {A : Type} (e : exn) : M A := λ w, (Raise e, w).

(** [for r in rs: f(r)], collecting what [f] leaves in each object. *)
Fixpoint for_each {A B : Type} (f : A → M B) (rs : list A) : M (list B) :=
  match rs with
  | [] => mret []
  | r :: rs' => r' ← f r; rs'' ← for_each f rs'; mret (r' :: rs'')
  end.

(** ** The ORM, as far as the repository uses it *)

Module Orm.
Section Orm.

Context (model : ModelType) (engine : Engine).

(** [inspect(model).primary_key_from_instance(item)]. *)
Definition primary_key_from_instance (item : dict) : list value :=
  attr item <$> primary_key model.

(** SELECT by primary key: the first row with this identity. *)
Definition select_by_key (key : list value) (tbl : list dict) : option dict :=
  head (filter (λ r, primary_key_from_instance r = key) tbl).

(** One statement of a flush.  INSERT appends the row unless a constraint
    rejects it.  UPDATE rewrites the row of the given identity, is skipped
    when no attribute changed, and is checked against the other rows.
    DELETE removes the row of the given identity. *)
Definition apply_change (tbl : list dict) (c : change) : exn + list dict :=
  match c with
  | Insert r =>
      match violation engine tbl r with
      | Some msg => inl (IntegrityError msg)
      | None => inr (tbl ++ [r])
      end
  | Modify key r =>
      match select_by_key key tbl with
      | None => inl StaleDataError
      | Some old =>
          if decide (r = old) then inr tbl
          else
            match violation engine
                    (filter (λ x, primary_key_from_instance x ≠ key) tbl) r with
            | Some msg => inl (IntegrityError msg)
            | None =>
                inr ((λ x, if decide (primary_key_from_instance x = key)
                           then r else x) <$> tbl)
            end
      end
  | Remove key => inr (filter (λ x, primary_key_from_instance x ≠ key) tbl)
  end.

Fixpoint flush (cs : list change) (tbl : list dict) : exn + list dict :=
  match cs with
  | [] => inr tbl
  | c :: cs' =>
      match apply_change tbl c with
      | inl e => inl e
      | inr tbl' => flush cs' tbl'
      end
  end.

Definition pending (w : world) (s : nat) : list change :=
  default [] (sessions w !! s).

(** [Session(engine)]: a fresh session with nothing pending. *)
Definition Session : M nat := λ w,
  let s := next_session w in
  (Return s,
   {| table := table w;
      sessions := <[s := []]> (sessions w);
      next_session := S s;
      log := log w ++ [Opened s] |}).

(** [session.close()]: whatever was not committed is rolled back. *)
Definition close (s : nat) (w : world) : world :=
  {| table := table w;
     sessions := <[s := []]> (sessions w);
     next_session := next_session w;
     log := log w ++ [Closed s] |}.

(** [with Session(engine) as session: body]: the session is closed when the
    block is left, by [return] or by an exception, which goes on. *)
Definition with_Session {A : Type} (body : nat → M A) : M A := λ w,
  match Session w with
  | (Return s, w1) => let (r, w2) := body s w1 in (r, close s w2)
  | (Raise e, w1) => (Raise e, w1)
  end.

Definition record (s : nat) (c : change) : M () := λ w,
  (Return (),
   {| table := table w;
      sessions := <[s := pending w s ++ [c]]> (sessions w);
      next_session := next_session w;
      log := log w |}).

(** [session.add(item)]. *)
Definition Session_add (s : nat) (item : dict) : M () := record s (Insert item).

(** [session.delete(item)]; a detached instance is attached first. *)
Definition Session_delete (s : nat) (item : dict) : M () :=
  record s (Remove (primary_key_from_instance item)).

(** [session.commit()]: flush, then make the result the committed table.
    A failing flush leaves the committed table as it was. *)
Definition commit (s : nat) : M () := λ w,
  match flush (pending w s) (table w) with
  | inl e => (Raise e, w)
  | inr tbl =>
      (Return (),
       {| table := tbl;
          sessions := <[s := []]> (sessions w);
          next_session := next_session w;
          log := log w ++ [Committed s] |})
  end.

(** What a session reads: the committed rows with its own pending changes
    flushed first (autoflush). *)
Definition view (s : nat) : M (list dict) := λ w,
  match flush (pending w s) (table w) with
  | inl e => (Raise e, w)
  | inr tbl => (Return tbl, w)
  end.

(** [session.get(entity=model, ident=keys)] with a dictionary: it must
    name exactly the primary-key attributes. *)
Definition Session_get (s : nat) (keys : dict) : M (option dict) :=
  if decide (size keys ≠ length (primary_key model)) then raise InvalidRequestError
  else if decide (Forall (λ k, is_Some (keys !! k)) (primary_key model)) then
    tbl ← view s;
    mret (select_by_key (attr keys <$> primary_key model) tbl)
  else raise InvalidRequestError.

(** [session.refresh(item)]: reload the attributes from the row. *)
Definition refresh (s : nat) (item : dict) : M dict :=
  tbl ← view s;
  match select_by_key (primary_key_from_instance item) tbl with
  | Some r => mret r
  | None => raise InvalidRequestError
  end.

(** The criterion of [filter_by]: every named attribute equals the given
    value. *)
Definition matches (filter_by : dict) (r : dict) : Prop :=
  map_Forall (λ k v, attr r k = v) filter_by.

#[global] Instance matches_dec filter_by r : Decision (matches filter_by r).
Proof. unfold matches. apply _. Defined.

(** [session.query(model).filter_by(...).all()], the keyword arguments
    being the entries of [filter_by]. *)
Definition query_filter_by_all (s : nat) (filter_by : dict) : M (list dict) :=
  if decide (map_Forall (λ k _, k ∈ attrs model) filter_by) then
    tbl ← view s;
    mret (filter (matches filter_by) tbl)
  else raise InvalidRequestError.

(** The constructor of the model called with the entries of [data] as
    keywords: an instance with the model's fields, [None] where [data]
    gives nothing. *)
Definition construct (data : dict) : dict :=
  list_to_map ((λ c, (c, attr data c)) <$> attrs model).

(** [item.model_dump()]. *)
Definition model_dump (item : dict) : dict := item.

(** [item_db.sqlmodel_update(data)] on an instance loaded in session [s]:
    the fields named in [data] are set, and the session will write the
    instance back under the identity it was loaded with. *)
Definition sqlmodel_update (s : nat) (item_db data : dict) : M dict :=
  let item_db' := filter (λ kv, kv.1 ∈ attrs model) data ∪ item_db in
  _ ← record s (Modify (primary_key_from_instance item_db) item_db');
  mret item_db'.

End Orm.
End Orm.

(** ** repository.py *)

(** [dict(pairs)]: later pairs overwrite earlier ones. *)
Definition py_dict (pairs : list (string * value)) : dict :=
  foldl (λ d kv, <[kv.1 := kv.2]> d) ∅ pairs.

(** [{k: v for k, v in d.items() if v is not None}]. *)
Definition without_none (d : dict) : dict := filter (λ kv, kv.2 ≠ VNone) d.

Record BaseRepository : Type := {
  engine : Engine;
  _model_type : ModelType
}.

Module Repository.
Section Repository.

Context (self : BaseRepository).

(** The decorator.  [session] is what line 10 extracts from the call: the
    last positional argument when it is a session, else the [session]
    keyword, else [None].  Without a session the body runs in a session
    of its own, which is committed; a truthy result is refreshed, element
    by element when it is a list; the session is closed on the way out. *)
Definition transactional (origin_func : nat → M pyres) (session : option nat)
  : M pyres :=
  match session with
  | None =>
      Orm.with_Session (λ session,
        res ← origin_func session;
        _ ← Orm.commit (_model_type self) (engine self) session;
        if truthy res then
          match res with
          | RList l =>
              l' ← for_each (Orm.refresh (_model_type self) (engine self) session) l;
              mret (RList l')
          | RItem r =>
              r' ← Orm.refresh (_model_type self) (engine self) session r;
              mret (RItem r')
          | RNone => mret RNone
          end
        else mret res)
  | Some session => origin_func session
  end.

Definition _get_keys_dict (item : dict) : dict :=
  py_dict (zip (primary_key (_model_type self))
               (Orm.primary_key_from_instance (_model_type self) item)).

(** [{k: props[k] for k in names}]: the names are taken in order, and the
    first one that [props] lacks stops the comprehension with
    [KeyError(k)], here [inl k]. *)
Fixpoint keys_comprehension (names : list string) (props acc : dict)
  : string + dict :=
  match names with
  | [] => inr acc
  | k :: names' =>
      match props !! k with
      | Some v => keys_comprehension names' props (<[k := v]> acc)
      | None => inl k
      end
  end.

Definition _get_keys_from_dict (props : dict) : string + dict :=
  keys_comprehension (primary_key (_model_type self)) props ∅.

Definition add (item : dict) (session : option nat) : M pyres :=
  transactional (λ session,
    _ ← Orm.Session_add session item;
    _ ← Orm.commit (_model_type self) (engine self) session;
    item' ← Orm.refresh (_model_type self) (engine self) session item;
    mret (RItem item')) session.

Definition get (keys : dict) (session : option nat) : M pyres :=
  transactional (λ session,
    r ← Orm.Session_get (_model_type self) (engine self) session keys;
    mret (from_option RItem RNone r)) session.

(** [kwargs] are the filters; the ones that are [None] are dropped. *)
Definition find (session : option nat) (kwargs : dict) : M pyres :=
  transactional (λ session,
    let filter_by := without_none kwargs in
    l ← Orm.query_filter_by_all (_model_type self) (engine self) session filter_by;
    mret (RList l)) session.

(** Line 70 calls [self.get(keys)] and leaves the session out. *)
Definition delete (keys : dict) (session : option nat) : M pyres :=
  transactional (λ session,
    item ← get keys None;
    if truthy item then
      match item with
      | RItem r => _ ← Orm.Session_delete (_model_type self) session r; mret RNone
      | _ => raise TypeError
      end
    else raise NotFoundError) session.

Definition update (item : dict) (session : option nat) : M pyres :=
  transactional (λ session,
    item_db ← get (_get_keys_dict item) (Some session);
    if truthy item_db then
      match item_db with
      | RItem r =>
          let item_data := Orm.model_dump item in
          r' ← Orm.sqlmodel_update (_model_type self) session r item_data;
          mret (RItem r')
      | _ => raise AttributeError
      end
    else mret item_db) session.

(** [kwargs] are the attributes to set.  The messages of lines 89 and 91
    call [_get_keys_dict] with unpacked [kwargs], which fails before the
    intended exception is built: with a [TypeError], or, at line 91 when
    [kwargs] has a single entry, with an [AttributeError] on the string
    that is taken for an instance. *)
Definition patch (keys : dict) (session : option nat) (kwargs : dict) : M pyres :=
  transactional (λ session,
    res ← find (Some session) keys;
    match res with
    | RNone => raise TypeError
    | RItem _ => raise TypeError
    | RList res =>
        if decide (1 < length res)%nat then
          raise (if decide (size kwargs = 1%nat) then AttributeError else TypeError)
        else
          match res with
          | [] => raise IndexError
          | item_db :: _ =>
              item_db' ← Orm.sqlmodel_update (_model_type self) session item_db kwargs;
              mret (RItem item_db')
          end
    end) session.

End Repository.
End Repository.

(** ** routes.py: the handlers *)

(** What a handler leaves to the framework: a value to serialise, an
    [HTTPException], or any other exception. *)
Inductive response : Type :=
| Body (content : pyres)
| HTTPException (status_code : Z) (detail : string)
| Unhandled (e : exn).

Module Web.

(** The status line the framework answers with when the handler raises:
    the code of an [HTTPException], 500 for an exception nobody handled.
    When the handler returns, the framework serialises the value against
    the response model of the route; that step belongs to the framework and
    is not modelled, so a returned value has no status here. *)
Definition raised_status (r : response) : option Z :=
  match r with
  | Body _ => None
  | HTTPException code _ => Some code
  | Unhandled _ => Some 500
  end.

End Web.

Module Routes.
Section Routes.

Context (model_type : ModelType) (repository : BaseRepository).

(** [kwargs] holds the key parameters of the request, [item] its body;
    only the attributes of the body that are not [None] are passed on. *)
Definition default_patch (kwargs item : dict) : world → response * world := λ w,
  match Repository.patch repository kwargs None (without_none item) w with
  | (Return res, w') => (Body res, w')
  | (Raise e, w') => (Unhandled e, w')
  end.

Definition default_delete (kwargs : dict) : world → response * world := λ w,
  match Repository.delete repository kwargs None w with
  | (Return res, w') => (Body res, w')
  | (Raise NotFoundError, w') => (HTTPException 404 "Item not found", w')
  | (Raise e, w') => (Unhandled e, w')
  end.

Definition default_put (body : dict) : world → response * world := λ w,
  match Repository.update repository (Orm.construct model_type body) None w with
  | (Return res, w') => (Body res, w')
  | (Raise e, w') => (Unhandled e, w')
  end.

Definition default_post (body : dict) : world → response * world := λ w,
  match Repository.add repository (Orm.construct model_type body) None w with
  | (Return res, w') => (Body res, w')
  | (Raise (IntegrityError orig_args0), w') => (HTTPException 409 orig_args0, w')
  | (Raise e, w') => (Unhandled e, w')
  end.

Definition default_get (kwargs : dict) : world → response * world := λ w,
  match Repository.get repository kwargs None w with
  | (Return RNone, w') => (HTTPException 404 "Item not found", w')
  | (Return res, w') => (Body res, w')
  | (Raise e, w') => (Unhandled e, w')
  end.

Definition default_find (kwargs : dict) : world → response * world := λ w,
  match Repository.find repository None kwargs w with
  | (Return res, w') => (Body res, w')
  | (Raise e, w') => (Unhandled e, w')
  end.

End Routes.
End Routes.

(** ** A concrete entity: heroes keyed by [id] *)

Module Heroes.

Definition hero : ModelType :=
  {| __name__ := "Hero"; attrs := ["id"; "name"; "age"]; primary_key := ["id"] |}.

(** A store whose only constraint is the primary key. *)
Definition hero_engine : Engine :=
  {| violation := λ tbl r,
       if decide (Exists (λ x, Orm.primary_key_from_instance hero x
                               = Orm.primary_key_from_instance hero r) tbl)
       then Some "UNIQUE constraint failed: hero.id"
       else None |}.

Definition heroes : BaseRepository :=
  {| engine := hero_engine; _model_type := hero |}.

Definition mk_hero (id : Z) (name : string) (age : value) : dict :=
  {[ "id" := VInt id; "name" := VStr name; "age" := age ]}.

Definition key (id : Z) : dict := {[ "id" := VInt id ]}.

(** A store holding [tbl], before any session was opened. *)
Definition db (tbl : list dict) : world :=
  {| table := tbl; sessions := ∅; next_session := 0; log := [] |}.

Definition alice : dict := mk_hero 1 "alice" (VInt 30).
Definition bob : dict := mk_hero 2 "bob" VNone.
Definition carol : dict := mk_hero 3 "carol" VNone.

(** A new state for [bob], under the same key. *)
Definition bobby : dict := mk_hero 2 "bobby" (VInt 41).

(** A store that also wants the names to be unique. *)
Definition named_engine : Engine :=
  {| violation := λ tbl r,
       if decide (Exists (λ x, Orm.primary_key_from_instance hero x
                               = Orm.primary_key_from_instance hero r) tbl)
       then Some "UNIQUE constraint failed: hero.id"
       else if decide (Exists (λ x, attr x "name" = attr r "name") tbl)
       then Some "UNIQUE constraint failed: hero.name"
       else None |}.

Definition named_heroes : BaseRepository :=
  {| engine := named_engine; _model_type := hero |}.

(** The payload that gives [bob] the name of [alice]. *)
Definition bob_as_alice : dict := mk_hero 2 "alice" VNone.



End Heroes.

(** ** Vocabulary of the statements *)

(** The key parameters of a request name exactly the primary-key
    attributes, as the synthesised signatures of the routes guarantee. *)
Definition valid_keys (model : ModelType) (keys : dict) : Prop :=
  size keys = length (primary_key model)
  ∧ Forall (λ k, is_Some (keys !! k)) (primary_key model).

(** No two stored records share a primary key. *)
Definition unique_keys (model : ModelType) (tbl : list dict) : Prop :=
  NoDup (Orm.primary_key_from_instance model <$> tbl).

(** Every filter that is not [None] names a field of the model. *)
Definition filterable (model : ModelType) (kwargs : dict) : Prop :=
  map_Forall (λ k v, v ≠ VNone → k ∈ attrs model) kwargs.

#[global] Instance valid_keys_dec model keys : Decision (valid_keys model keys).
Proof. unfold valid_keys. apply _. Defined.

#[global] Instance unique_keys_dec model tbl : Decision (unique_keys model tbl).
Proof. unfold unique_keys. apply _. Defined.

#[global] Instance filterable_dec model kwargs : Decision (filterable model kwargs).
Proof. unfold filterable. apply _. Defined.

(** The store enforces the primary key: a record whose key is already
    stored is rejected. *)
Definition pk_enforced (model : ModelType) (engine : Engine) : Prop :=
  ∀ tbl r x,
    x ∈ tbl →
    Orm.primary_key_from_instance model x = Orm.primary_key_from_instance model r →
    is_Some (violation engine tbl r).

(** The session events an operation added to the log. *)
Definition opened_sessions (evs : list event) : list nat :=
  omap (λ e, match e with Opened s => Some s | _ => None end) evs.

(** A computation keeps a property of the state: whatever it returns or
    raises, the property holds afterwards if it held before. *)
Definition preserves {A : Type} (I : world → Prop) (m : M A) : Prop :=
  ∀ w, I w → I (m w).2.


(** A property of the state that looks only at the committed table and at
    the log of session events, not at what sessions hold pending. *)
Definition session_blind (I : world → Prop) : Prop :=
  ∀ w w', table w' = table w → log w' = log w → I w → I w'.


(** Among some session events, every session that is opened is closed. *)
Definition balanced (evs : list event) : Prop :=
  ∀ s, Opened s ∈ evs → Closed s ∈ evs.

(** A computation that leaves no session open: the events it adds to the
    log are balanced, whether it returns or raises. *)
Definition tidy {A : Type} (m : M A) : Prop :=
  ∀ w, ∃ evs, log (m w).2 = log w ++ evs ∧ balanced evs.


(** * Facts *)

Lemma run_bind {A B} (m : M A) (f : A → M B) w :
  (m ≫= f) w = match m w with
               | (Return a, w') => f a w'
               | (Raise e, w') => (Raise e, w')
               end.
Proof. reflexivity. Qed.

Lemma run_ret {A} (a : A) w : (mret a : M A) w = (Return a, w).
Proof. reflexivity. Qed.

Section Facts.

Context (self : BaseRepository).

#[local] Abbreviation model := (_model_type self).
#[local] Abbreviation ident := (Orm.primary_key_from_instance (_model_type self)).
#[local] Abbreviation select := (Orm.select_by_key (_model_type self)).
#[local] Abbreviation flush := (Orm.flush (_model_type self) (engine self)).
#[local] Abbreviation view := (Orm.view (_model_type self) (engine self)).
#[local] Abbreviation commit := (Orm.commit (_model_type self) (engine self)).
#[local] Abbreviation refresh := (Orm.refresh (_model_type self) (engine self)).
#[local] Abbreviation transactional := (Repository.transactional self).

(** *** Selecting by key *)

Lemma select_Some key tbl r :
  select key tbl = Some r → ident r = key ∧ r ∈ tbl.
Proof.
  unfold Orm.select_by_key. intros H.
  apply head_Some_elem_of in H. by apply list_elem_of_filter in H.
Qed.

Lemma select_None key tbl :
  select key tbl = None ↔ Forall (λ r, ident r ≠ key) tbl.
Proof.
  unfold Orm.select_by_key. rewrite head_None. split.
  - intros H. apply Forall_forall. intros r Hr Hk.
    assert (r ∈ filter (λ r, ident r = key) tbl) as Hin
      by (apply list_elem_of_filter; done).
    rewrite H in Hin. by apply elem_of_nil in Hin.
  - induction 1 as [|r tbl Hr _ IH]; [done|].
    rewrite filter_cons. by destruct (decide _).
Qed.

Lemma select_self key tbl r :
  select key tbl = Some r → select (ident r) tbl = Some r.
Proof. intros H. by destruct (select_Some _ _ _ H) as [-> _]. Qed.

Lemma select_unique tbl r :
  unique_keys model tbl → r ∈ tbl → select (ident r) tbl = Some r.
Proof.
  unfold unique_keys, Orm.select_by_key.
  induction tbl as [|x tbl IH]; intros Hnd Hr; [by apply elem_of_nil in Hr|].
  rewrite fmap_cons in Hnd. apply NoDup_cons in Hnd as [Hx Hnd].
  rewrite filter_cons. destruct (decide (ident x = ident r)) as [E|NE].
  - apply elem_of_cons in Hr as [->|Hr]; [done|].
    exfalso. apply Hx. rewrite E. by apply list_elem_of_fmap_2.
  - apply elem_of_cons in Hr as [->|Hr]; [done|]. by apply IH.
Qed.

(** *** Sessions with nothing pending *)

Lemma pending_Session w : Orm.pending (Orm.Session w).2 (next_session w) = [].
Proof. unfold Orm.pending. cbn. by rewrite lookup_insert_eq. Qed.

Lemma view_quiet s w :
  Orm.pending w s = [] → view s w = (Return (table w), w).
Proof. unfold Orm.view. by intros ->. Qed.

Lemma refresh_quiet s w r r' :
  Orm.pending w s = [] → select (ident r) (table w) = Some r' →
  refresh s r w = (Return r', w).
Proof.
  intros Hp Hr. unfold Orm.refresh. rewrite run_bind, view_quiet by done.
  by rewrite Hr.
Qed.

Lemma for_each_refresh s w l :
  Orm.pending w s = [] →
  Forall (λ r, select (ident r) (table w) = Some r) l →
  for_each (refresh s) l w = (Return l, w).
Proof.
  intros Hp. induction 1 as [|r l Hr _ IH]; [done|].
  cbn [for_each]. rewrite run_bind, (refresh_quiet _ _ _ r) by done.
  by rewrite run_bind, IH.
Qed.

Lemma pending_commit s w tbl :
  flush (Orm.pending w s) (table w) = inr tbl →
  ∃ w', commit s w = (Return (), w') ∧ table w' = tbl ∧ Orm.pending w' s = []
        ∧ log w' = log w ++ [Committed s] ∧ next_session w' = next_session w
        ∧ sessions w' = <[s := []]> (sessions w).
Proof.
  intros H. unfold Orm.commit. rewrite H. eexists. split; [done|].
  unfold Orm.pending. cbn. by rewrite lookup_insert_eq.
Qed.

Lemma Session_get_quiet s keys w :
  valid_keys model keys → Orm.pending w s = [] →
  Orm.Session_get model (engine self) s keys w
  = (Return (select (attr keys <$> primary_key model) (table w)), w).
Proof.
  intros [Hs Hf] Hp. unfold Orm.Session_get.
  destruct (decide (size keys ≠ _)) as [?|_]; [done|].
  destruct (decide (Forall _ _)) as [_|?]; [|done].
  by rewrite run_bind, view_quiet.
Qed.

Lemma query_quiet s filter_by w :
  map_Forall (λ k _, k ∈ attrs model) filter_by → Orm.pending w s = [] →
  Orm.query_filter_by_all model (engine self) s filter_by w
  = (Return (filter (Orm.matches filter_by) (table w)), w).
Proof.
  intros Hf Hp. unfold Orm.query_filter_by_all.
  destruct (decide _) as [_|?]; [|done]. by rewrite run_bind, view_quiet.
Qed.

Lemma filterable_without_none kwargs :
  filterable model kwargs →
  map_Forall (λ k _, k ∈ attrs model) (without_none kwargs).
Proof.
  intros H k v Hkv. apply map_lookup_filter_Some in Hkv as [Hkv Hv]. by eapply H.
Qed.

(** *** The decorator, called without a session *)

Lemma transactional_raise origin w e w2 :
  origin (next_session w) (Orm.Session w).2 = (Raise e, w2) →
  transactional origin None w = (Raise e, Orm.close (next_session w) w2).
Proof.
  intros H. unfold Repository.transactional, Orm.with_Session. cbn.
  rewrite run_bind. cbn in H. by rewrite H.
Qed.

Lemma transactional_commit_raise origin w res w2 e :
  origin (next_session w) (Orm.Session w).2 = (Return res, w2) →
  flush (Orm.pending w2 (next_session w)) (table w2) = inl e →
  transactional origin None w = (Raise e, Orm.close (next_session w) w2).
Proof.
  intros H Hf. unfold Repository.transactional, Orm.with_Session. cbn.
  rewrite run_bind. cbn in H. rewrite H. rewrite run_bind.
  unfold Orm.commit. by rewrite Hf.
Qed.

Lemma transactional_return origin w res w2 tbl :
  origin (next_session w) (Orm.Session w).2 = (Return res, w2) →
  flush (Orm.pending w2 (next_session w)) (table w2) = inr tbl →
  match res with
  | RNone => True
  | RItem r => select (ident r) tbl = Some r
  | RList l => Forall (λ r, select (ident r) tbl = Some r) l
  end →
  ∃ w', transactional origin None w = (Return res, w') ∧ table w' = tbl
        ∧ log w' = log w2 ++ [Committed (next_session w); Closed (next_session w)]
        ∧ next_session w' = next_session w2
        ∧ sessions w' = <[next_session w := []]> (sessions w2).
Proof.
  intros H Hf Hres. unfold Repository.transactional, Orm.with_Session. cbn.
  rewrite run_bind. cbn in H. rewrite H. rewrite run_bind.
  destruct (pending_commit _ _ _ Hf) as (w3 & -> & Ht & Hp & Hl & Hn & Hs).
  assert (Orm.close (next_session w) w3
          = {| table := tbl;
               sessions := <[next_session w := []]> (sessions w2);
               next_session := next_session w2;
               log := log w2 ++ [Committed (next_session w); Closed (next_session w)] |})
    as Hclose.
  { unfold Orm.close. rewrite Ht, Hl, Hn, Hs, insert_insert_eq, <- (assoc_L (++)). done. }
  destruct res as [|r|l]; cbn [truthy].
  - rewrite run_ret, Hclose. by eexists.
  - rewrite run_bind, (refresh_quiet _ _ _ r) by (by rewrite ?Ht).
    rewrite run_ret, Hclose. by eexists.
  - destruct (bool_decide (l = [])); cbn [negb].
    + rewrite run_ret, Hclose. by eexists.
    + rewrite run_bind, for_each_refresh by (by rewrite ?Ht).
      rewrite run_ret, Hclose. by eexists.
Qed.

Ltac run_decorated :=
  match goal with
  | |- context [Repository.transactional _ ?o None ?w] =>
      let w' := fresh "w'" in
      let Ht := fresh "Ht" in
      let Hl := fresh "Hl" in
      let Hn := fresh "Hn" in
      let Hs := fresh "Hs" in
      edestruct (transactional_return o w) as (w' & -> & Ht & Hl & Hn & Hs)
  end.

(** *** [get] and [find] *)

Lemma get_run keys w :
  valid_keys model keys →
  ∃ w', Repository.get self keys None w
        = (Return (from_option RItem RNone
                     (select (attr keys <$> primary_key model) (table w))), w')
        ∧ table w' = table w
        ∧ log w' = log w ++ [Opened (next_session w); Committed (next_session w);
                             Closed (next_session w)]
        ∧ next_session w' = S (next_session w)
        ∧ sessions w' = <[next_session w := []]> (sessions w).
Proof.
  intros Hk. unfold Repository.get. run_decorated.
  - rewrite run_bind, Session_get_quiet by (done || apply pending_Session).
    by rewrite run_ret.
  - by rewrite pending_Session.
  - cbn [table snd Orm.Session].
    destruct (select _ (table w)) as [r|] eqn:E; cbn; [|done].
    by apply select_self in E.
  - eexists. split; [done|]. cbn in *.
    by rewrite Ht, Hl, Hn, Hs, insert_insert_eq, <- (assoc_L (++)).
Qed.

Lemma get_in_session keys s w :
  valid_keys model keys → Orm.pending w s = [] →
  Repository.get self keys (Some s) w
  = (Return (from_option RItem RNone
               (select (attr keys <$> primary_key model) (table w))), w).
Proof.
  intros Hk Hp. unfold Repository.get, Repository.transactional.
  by rewrite run_bind, Session_get_quiet.
Qed.

Lemma find_run kwargs w :
  filterable model kwargs → unique_keys model (table w) →
  ∃ w', Repository.find self None kwargs w
        = (Return (RList (filter (Orm.matches (without_none kwargs)) (table w))), w')
        ∧ table w' = table w
        ∧ log w' = log w ++ [Opened (next_session w); Committed (next_session w);
                             Closed (next_session w)]
        ∧ next_session w' = S (next_session w)
        ∧ sessions w' = <[next_session w := []]> (sessions w).
Proof.
  intros Hk Hu. unfold Repository.find. run_decorated.
  - rewrite run_bind, query_quiet
      by (by apply filterable_without_none || apply pending_Session).
    by rewrite run_ret.
  - by rewrite pending_Session.
  - cbn [table snd Orm.Session]. apply Forall_forall. intros r Hr.
    apply list_elem_of_filter in Hr as [_ Hr]. by apply select_unique.
  - eexists. split; [done|]. cbn in *.
    by rewrite Ht, Hl, Hn, Hs, insert_insert_eq, <- (assoc_L (++)).
Qed.

Lemma find_in_session kwargs s w :
  filterable model kwargs → Orm.pending w s = [] →
  Repository.find self (Some s) kwargs w
  = (Return (RList (filter (Orm.matches (without_none kwargs)) (table w))), w).
Proof.
  intros Hk Hp. unfold Repository.find, Repository.transactional.
  by rewrite run_bind, query_quiet by (by apply filterable_without_none || done).
Qed.

(** *** [delete] *)

Lemma delete_absent keys w :
  valid_keys model keys →
  select (attr keys <$> primary_key model) (table w) = None →
  ∃ w', Repository.delete self keys None w = (Raise NotFoundError, w')
        ∧ table w' = table w
        ∧ log w' = log w ++ [Opened (next_session w); Opened (S (next_session w));
                             Committed (S (next_session w));
                             Closed (S (next_session w)); Closed (next_session w)].
Proof.
  intros Hk Hsel. unfold Repository.delete.
  destruct (get_run keys (Orm.Session w).2 Hk) as (w2 & Hget & Ht & Hl & Hn & Hs).
  change (table (Orm.Session w).2) with (table w) in Hget, Ht.
  rewrite Hsel in Hget.
  rewrite (transactional_raise _ _ NotFoundError w2).
  - eexists. split; [done|]. cbn in *. rewrite Ht, Hl.
    by rewrite <- !(assoc_L (++)).
  - by rewrite run_bind, Hget.
Qed.

Lemma delete_present keys w r :
  valid_keys model keys →
  select (attr keys <$> primary_key model) (table w) = Some r →
  ∃ w', Repository.delete self keys None w = (Return RNone, w')
        ∧ table w' = filter (λ x, ident x ≠ attr keys <$> primary_key model) (table w)
        ∧ log w' = log w ++ [Opened (next_session w); Opened (S (next_session w));
                             Committed (S (next_session w));
                             Closed (S (next_session w));
                             Committed (next_session w); Closed (next_session w)].
Proof.
  intros Hk Hsel. unfold Repository.delete.
  destruct (get_run keys (Orm.Session w).2 Hk) as (w2 & Hget & Ht & Hl & Hn & Hs).
  change (table (Orm.Session w).2) with (table w) in Hget, Ht.
  rewrite Hsel in Hget.
  destruct (select_Some _ _ _ Hsel) as [Hr _].
  run_decorated.
  - rewrite run_bind, Hget. cbn [from_option truthy].
    unfold Orm.Session_delete. rewrite run_bind. unfold Orm.record. by rewrite run_ret.
  - unfold Orm.pending. cbn [sessions table]. rewrite lookup_insert_eq. cbn [default].
    rewrite Hs. cbn [sessions next_session snd Orm.Session].
    rewrite lookup_insert_ne, lookup_insert_eq by lia. cbn.
    by rewrite Ht, Hr.
  - done.
  - eexists. split; [done|]. split; [done|]. cbn in *. rewrite Hl0, Hl.
    by rewrite <- !(assoc_L (++)).
Qed.

Lemma select_is_Some key tbl r :
  r ∈ tbl → ident r = key → is_Some (select key tbl).
Proof.
  intros Hr Hk. destruct (select key tbl) eqn:E; [by eexists|].
  apply select_None in E. rewrite Forall_forall in E. by destruct (E r Hr).
Qed.

Lemma select_removed key tbl :
  select key (filter (λ x, ident x ≠ key) tbl) = None.
Proof.
  apply select_None, Forall_forall. intros r Hr.
  by apply list_elem_of_filter in Hr as [? _].
Qed.

Lemma default_get_absent kwargs w :
  valid_keys model kwargs →
  select (attr kwargs <$> primary_key model) (table w) = None →
  ∃ w', Routes.default_get self kwargs w = (HTTPException 404 "Item not found", w')
        ∧ table w' = table w.
Proof.
  intros Hk Hsel. unfold Routes.default_get.
  destruct (get_run kwargs w Hk) as (w' & -> & Ht & _). rewrite Hsel. by eexists.
Qed.

(** C4. A GET by primary key and a DELETE whose key values match no stored
    record are answered with HTTP 404, and the stored records are the same
    after the failed delete (and after the failed get). *)
Theorem absent_key_is_404 (kwargs : dict) (w : world) :
  valid_keys model kwargs →
  (∀ r, r ∈ table w → ident r ≠ attr kwargs <$> primary_key model) →
  (∃ w', Routes.default_get self kwargs w = (HTTPException 404 "Item not found", w')
         ∧ Web.raised_status (Routes.default_get self kwargs w).1 = Some 404
         ∧ table w' = table w)
  ∧ (∃ w', Routes.default_delete self kwargs w
           = (HTTPException 404 "Item not found", w')
           ∧ Web.raised_status (Routes.default_delete self kwargs w).1 = Some 404
           ∧ table w' = table w).
Proof.
  intros Hk Habs.
  assert (select (attr kwargs <$> primary_key model) (table w) = None) as Hsel
    by (by apply select_None, Forall_forall).
  split.
  - destruct (default_get_absent kwargs w Hk Hsel) as (w' & E & Ht).
    exists w'. by rewrite E.
  - destruct (delete_absent kwargs w Hk Hsel) as (w' & E & Ht & _).
    exists w'. unfold Routes.default_delete. by rewrite E.
Qed.

(** C5. When a stored record is deleted by its primary key, the delete
    succeeds, and fetching the same key afterwards finds nothing: the
    repository returns [None] and the route answers 404. *)
Theorem get_after_delete_not_found (keys r : dict) (w : world) :
  valid_keys model keys →
  r ∈ table w →
  ident r = attr keys <$> primary_key model →
  ∃ w1, Repository.delete self keys None w = (Return RNone, w1)
        ∧ (∃ w2, Repository.get self keys None w1 = (Return RNone, w2))
        ∧ (∃ w2, Routes.default_get self keys w1
                 = (HTTPException 404 "Item not found", w2)).
Proof.
  intros Hk Hr Hid.
  destruct (select_is_Some _ _ _ Hr Hid) as [r' Hsel].
  destruct (delete_present keys w r' Hk Hsel) as (w1 & E & Ht & _).
  exists w1. split; [done|].
  assert (select (attr keys <$> primary_key model) (table w1) = None) as Hgone
    by (rewrite Ht; apply select_removed).
  split.
  - destruct (get_run keys w1 Hk) as (w2 & -> & _). rewrite Hgone. by eexists.
  - destruct (default_get_absent keys w1 Hk Hgone) as (w2 & -> & _). by eexists.
Qed.

(** *** [_get_keys_dict] *)

Lemma py_dict_lookup (f : string → value) ks (d : dict) k :
  foldl (λ d kv, <[kv.1 := kv.2]> d) d (zip ks (f <$> ks)) !! k
  = if decide (k ∈ ks) then Some (f k) else d !! k.
Proof.
  revert d. induction ks as [|k0 ks IH]; intros d; cbn [zip zip_with fmap list_fmap foldl].
  - by destruct (decide _) as [H|_]; [apply elem_of_nil in H|].
  - rewrite IH. cbn [fst snd].
    destruct (decide (k ∈ ks)) as [Hin|Hnin].
    + by rewrite decide_True by (by apply elem_of_cons; right).
    + destruct (decide (k = k0)) as [->|Hne].
      * rewrite decide_True by (by apply elem_of_cons; left).
        by rewrite lookup_insert_eq.
      * rewrite decide_False by (by intros [?|?]%elem_of_cons).
        by rewrite lookup_insert_ne.
Qed.

Lemma keys_dict_lookup item k :
  Repository._get_keys_dict self item !! k
  = if decide (k ∈ primary_key model) then Some (attr item k) else None.
Proof.
  unfold Repository._get_keys_dict, py_dict, Orm.primary_key_from_instance.
  rewrite py_dict_lookup. by destruct (decide _).
Qed.

Lemma keys_dict_ident item :
  attr (Repository._get_keys_dict self item) <$> primary_key model = ident item.
Proof.
  unfold Orm.primary_key_from_instance. apply list_fmap_ext. intros i k Hk.
  unfold attr at 1. rewrite keys_dict_lookup.
  by rewrite decide_True by (by eapply list_elem_of_lookup_2).
Qed.

Lemma keys_dict_valid item :
  NoDup (primary_key model) → valid_keys model (Repository._get_keys_dict self item).
Proof.
  intros Hnd. split.
  - rewrite <- size_dom.
    assert (dom (Repository._get_keys_dict self item)
            = (list_to_set (primary_key model) : gset string)) as ->.
    { apply set_eq. intros k. rewrite elem_of_dom, keys_dict_lookup, elem_of_list_to_set.
      destruct (decide _); split; (done || by intros []). }
    by apply size_list_to_set.
  - apply Forall_forall. intros k Hk. rewrite keys_dict_lookup.
    by rewrite decide_True.
Qed.

(** *** [add] *)

Lemma select_appended tbl item :
  Forall (λ x, ident x ≠ ident item) tbl →
  select (ident item) (tbl ++ [item]) = Some item.
Proof.
  intros H. unfold Orm.select_by_key. rewrite filter_app.
  apply select_None in H. unfold Orm.select_by_key in H. apply head_None in H.
  rewrite H, app_nil_l, filter_cons. by rewrite decide_True.
Qed.

Lemma accepted_is_new tbl item :
  pk_enforced model (engine self) →
  violation (engine self) tbl item = None →
  Forall (λ x, ident x ≠ ident item) tbl.
Proof.
  intros Hpk Hv. apply Forall_forall. intros x Hx E.
  destruct (Hpk tbl item x Hx E) as [msg Hmsg]. congruence.
Qed.

Lemma add_rejected item w msg :
  violation (engine self) (table w) item = Some msg →
  ∃ w', Repository.add self item None w = (Raise (IntegrityError msg), w')
        ∧ table w' = table w
        ∧ log w' = log w ++ [Opened (next_session w); Closed (next_session w)].
Proof.
  intros Hv. unfold Repository.add.
  erewrite transactional_raise; cycle 1.
  - unfold Orm.Session_add. rewrite run_bind. unfold Orm.record at 1.
    rewrite run_bind. unfold Orm.commit, Orm.pending. cbn [sessions table snd Orm.Session].
    rewrite !lookup_insert_eq. cbn. by rewrite Hv.
  - eexists. split; [done|]. cbn. split; [done|]. by rewrite <- (assoc_L (++)).
Qed.

Lemma add_in_session item w :
  pk_enforced model (engine self) →
  violation (engine self) (table w) item = None →
  ∃ w3, (_ ← Orm.Session_add (next_session w) item;
         _ ← commit (next_session w);
         item' ← refresh (next_session w) item;
         mret (RItem item')) (Orm.Session w).2 = (Return (RItem item), w3)
        ∧ table w3 = table w ++ [item]
        ∧ Orm.pending w3 (next_session w) = []
        ∧ log w3 = log w ++ [Opened (next_session w); Committed (next_session w)].
Proof.
  intros Hpk Hv.
  pose proof (select_appended _ _ (accepted_is_new _ _ Hpk Hv)) as Hsel.
  unfold Orm.Session_add. rewrite run_bind. unfold Orm.record at 1.
  rewrite run_bind.
  edestruct (pending_commit (next_session w)) as (w3 & -> & Ht3 & Hp3 & Hl3 & _).
  { unfold Orm.pending. cbn [sessions table snd Orm.Session].
    rewrite !lookup_insert_eq. cbn. by rewrite Hv. }
  rewrite run_bind, (refresh_quiet _ _ _ item) by (by rewrite ?Ht3).
  rewrite run_ret. exists w3. split; [done|]. split; [done|]. split; [done|].
  rewrite Hl3. cbn. by rewrite <- (assoc_L (++)).
Qed.

Lemma add_accepted item w :
  pk_enforced model (engine self) →
  violation (engine self) (table w) item = None →
  ∃ w', Repository.add self item None w = (Return (RItem item), w')
        ∧ table w' = table w ++ [item]
        ∧ log w' = log w ++ [Opened (next_session w); Committed (next_session w);
                             Committed (next_session w); Closed (next_session w)].
Proof.
  intros Hpk Hv. unfold Repository.add.
  pose proof (select_appended _ _ (accepted_is_new _ _ Hpk Hv)) as Hsel.
  destruct (add_in_session item w Hpk Hv) as (w3 & Ho & Ht3 & Hp3 & Hl3).
  run_decorated.
  - exact Ho.
  - by rewrite Hp3.
  - by rewrite Ht3.
  - eexists. split; [done|]. rewrite Ht, Hl, Ht3, Hl3. split; [done|].
    by rewrite <- !(assoc_L (++)).
Qed.

(** C3. A create that the store rejects for a uniqueness or integrity
    violation is answered with HTTP 409 whose detail is the message of the
    database, and the stored records are unchanged.  In particular this is
    what happens, on a store that enforces the primary key, when the key of
    the new record is already stored. *)
Theorem rejected_post_is_409 (body : dict) (w : world) :
  (∀ msg,
     violation (engine self) (table w) (Orm.construct model body) = Some msg →
     ∃ w', Routes.default_post model self body w = (HTTPException 409 msg, w')
           ∧ Web.raised_status (Routes.default_post model self body w).1 = Some 409
           ∧ table w' = table w)
  ∧ (pk_enforced model (engine self) →
     ∀ x, x ∈ table w → ident x = ident (Orm.construct model body) →
     ∃ msg w',
       violation (engine self) (table w) (Orm.construct model body) = Some msg
       ∧ Routes.default_post model self body w = (HTTPException 409 msg, w')
       ∧ table w' = table w).
Proof.
  assert (∀ msg,
     violation (engine self) (table w) (Orm.construct model body) = Some msg →
     ∃ w', Routes.default_post model self body w = (HTTPException 409 msg, w')
           ∧ table w' = table w) as Hmain.
  { intros msg Hv. unfold Routes.default_post.
    destruct (add_rejected _ w msg Hv) as (w' & -> & Ht & _). by exists w'. }
  split.
  - intros msg Hv. destruct (Hmain msg Hv) as (w' & E & Ht).
    exists w'. by rewrite E.
  - intros Hpk x Hx Hid. destruct (Hpk _ _ x Hx Hid) as [msg Hv].
    destruct (Hmain msg Hv) as (w' & E & Ht). by exists msg, w'.
Qed.

(** C2. When a POST succeeds, the record it created is the one a GET by
    that record's primary key returns afterwards; the same holds of [add]
    and [get] on the repository. *)
Theorem get_after_post_returns_created (body : dict) (w w1 : world) (res : pyres) :
  NoDup (primary_key model) →
  pk_enforced model (engine self) →
  Routes.default_post model self body w = (Body res, w1) →
  res = RItem (Orm.construct model body)
  ∧ Repository.add self (Orm.construct model body) None w = (Return res, w1)
  ∧ (∃ w2, Repository.get self
             (Repository._get_keys_dict self (Orm.construct model body)) None w1
           = (Return res, w2))
  ∧ (∃ w2, Routes.default_get self
             (Repository._get_keys_dict self (Orm.construct model body)) w1
           = (Body res, w2)).
Proof.
  intros Hnd Hpk Hpost. set (item := Orm.construct model body) in *.
  unfold Routes.default_post in Hpost. fold item in Hpost.
  destruct (violation (engine self) (table w) item) as [msg|] eqn:Hv.
  { destruct (add_rejected item w msg Hv) as (w' & E & _).
    rewrite E in Hpost. discriminate. }
  destruct (add_accepted item w Hpk Hv) as (w' & E & Ht & _).
  rewrite E in Hpost. injection Hpost as <- <-.
  pose proof (keys_dict_valid item Hnd) as Hk.
  assert (select (attr (Repository._get_keys_dict self item) <$> primary_key model)
            (table w') = Some item) as Hsel.
  { rewrite keys_dict_ident, Ht.
    by apply select_appended, accepted_is_new. }
  split; [done|]. split; [done|]. split.
  - destruct (get_run _ w' Hk) as (w2 & -> & _). rewrite Hsel. by eexists.
  - unfold Routes.default_get.
    destruct (get_run _ w' Hk) as (w2 & -> & _). rewrite Hsel. by eexists.
Qed.

(** *** [update] *)

Lemma updated_lookup (data r : dict) k :
  (filter (λ kv, kv.1 ∈ attrs model) data ∪ r) !! k
  = match data !! k with
    | Some v => if decide (k ∈ attrs model) then Some v else r !! k
    | None => r !! k
    end.
Proof.
  rewrite lookup_union. destruct (data !! k) as [v|] eqn:E.
  - destruct (decide (k ∈ attrs model)) as [Hin|Hnin].
    + assert (filter (λ kv, kv.1 ∈ attrs model) data !! k = Some v) as ->
        by (by apply map_lookup_filter_Some).
      by destruct (r !! k).
    + assert (filter (λ kv, kv.1 ∈ attrs model) data !! k = None) as ->
        by (apply map_lookup_filter_None; right; by intros ? _).
      by destruct (r !! k).
  - assert (filter (λ kv, kv.1 ∈ attrs model) data !! k = None) as ->
      by (apply map_lookup_filter_None; by left).
    by destruct (r !! k).
Qed.

Lemma updated_ident (data r : dict) :
  ident r = ident data →
  ident (filter (λ kv, kv.1 ∈ attrs model) data ∪ r) = ident data.
Proof.
  unfold Orm.primary_key_from_instance. intros Hid.
  apply list_fmap_ext. intros i k Hk.
  assert (attr r k = attr data k) as Hrk.
  { eapply (list_fmap_inj_1 (attr r) (attr data)); [done|].
    by eapply list_elem_of_lookup_2. }
  unfold attr in *. rewrite updated_lookup.
  destruct (data !! k); [|done]. by destruct (decide _).
Qed.

Lemma select_rewritten key tbl r r' :
  select key tbl = Some r → ident r' = key →
  select key ((λ x, if decide (ident x = key) then r' else x) <$> tbl) = Some r'.
Proof.
  unfold Orm.select_by_key. intros Hsel Hr'.
  induction tbl as [|x tbl IH]; [done|].
  rewrite fmap_cons, filter_cons. rewrite filter_cons in Hsel.
  destruct (decide (ident x = key)) as [E|NE].
  - by rewrite decide_True.
  - rewrite decide_False by done. by apply IH.
Qed.

Lemma update_in_session item w :
  NoDup (primary_key model) →
  ∃ w2, (item_db ← Repository.get self (Repository._get_keys_dict self item)
                     (Some (next_session w));
         if truthy item_db then
           match item_db with
           | RItem r =>
               let item_data := Orm.model_dump item in
               r' ← Orm.sqlmodel_update model (next_session w) r item_data;
               mret (RItem r')
           | _ => raise AttributeError
           end
         else mret item_db) (Orm.Session w).2
        = (Return (from_option
                     (λ r, RItem (filter (λ kv, kv.1 ∈ attrs model) item ∪ r))
                     RNone (select (ident item) (table w))), w2)
        ∧ table w2 = table w
        ∧ log w2 = log w ++ [Opened (next_session w)]
        ∧ Orm.pending w2 (next_session w)
          = from_option
              (λ r, [Modify (ident item) (filter (λ kv, kv.1 ∈ attrs model) item ∪ r)])
              [] (select (ident item) (table w)).
Proof.
  intros Hnd. rewrite run_bind.
  rewrite get_in_session by (by apply keys_dict_valid || apply pending_Session).
  rewrite keys_dict_ident. change (table (Orm.Session w).2) with (table w).
  destruct (select (ident item) (table w)) as [r|] eqn:Hsel; cbn [from_option truthy].
  - destruct (select_Some _ _ _ Hsel) as [Hr _].
    eexists. split; [reflexivity|].
    cbn [table log]. split; [done|]. split; [done|].
    rewrite pending_Session. unfold Orm.pending. cbn [sessions].
    rewrite lookup_insert_eq. cbn. by rewrite Hr.
  - rewrite run_ret. eexists. split; [done|]. split; [done|]. split; [done|].
    apply pending_Session.
Qed.

Lemma update_absent item w :
  NoDup (primary_key model) →
  select (ident item) (table w) = None →
  ∃ w', Repository.update self item None w = (Return RNone, w')
        ∧ table w' = table w
        ∧ log w' = log w ++ [Opened (next_session w); Committed (next_session w);
                             Closed (next_session w)].
Proof.
  intros Hnd Hsel. unfold Repository.update.
  destruct (update_in_session item w Hnd) as (w2 & Ho & Ht2 & Hl2 & Hp2).
  rewrite Hsel in Ho, Hp2. cbn [from_option] in Ho, Hp2.
  run_decorated.
  - exact Ho.
  - by rewrite Hp2.
  - done.
  - eexists. split; [done|]. rewrite Ht, Hl, Ht2, Hl2. split; [done|].
    by rewrite <- !(assoc_L (++)).
Qed.

Lemma update_present item w r :
  NoDup (primary_key model) →
  select (ident item) (table w) = Some r →
  (∃ msg w', Repository.update self item None w = (Raise (IntegrityError msg), w'))
  ∨ (∃ w', Repository.update self item None w
           = (Return (RItem (filter (λ kv, kv.1 ∈ attrs model) item ∪ r)), w')
           ∧ select (ident item) (table w')
             = Some (filter (λ kv, kv.1 ∈ attrs model) item ∪ r)).
Proof.
  intros Hnd Hsel. unfold Repository.update.
  destruct (update_in_session item w Hnd) as (w2 & Ho & Ht2 & Hl2 & Hp2).
  rewrite Hsel in Ho, Hp2. cbn [from_option] in Ho, Hp2.
  destruct (select_Some _ _ _ Hsel) as [Hr _].
  pose proof (updated_ident item r Hr) as Hr'.
  set (r' := filter (λ kv, kv.1 ∈ attrs model) item ∪ r) in *.
  assert (flush (Orm.pending w2 (next_session w)) (table w2)
          = match
              (if decide (r' = r) then None
               else violation (engine self)
                      (filter (λ x, ident x ≠ ident item) (table w)) r')
            with
            | Some msg => inl (IntegrityError msg)
            | None =>
                inr (if decide (r' = r) then table w
                     else (λ x, if decide (ident x = ident item) then r' else x)
                            <$> table w)
            end) as Hflush.
  { rewrite Hp2, Ht2. cbn [Orm.flush Orm.apply_change]. rewrite Hsel.
    destruct (decide (r' = r)); [done|]. by destruct (violation _ _ _). }
  destruct (decide (r' = r)) as [E|NE].
  - right. run_decorated.
    + exact Ho.
    + exact Hflush.
    + cbn. rewrite Hr'. by rewrite E.
    + exists w'. split; [done|]. rewrite Ht. by rewrite E.
  - destruct (violation _ _ _) as [msg|] eqn:Hv.
    + left. exists msg. eexists. by apply (transactional_commit_raise _ _ _ _ _ Ho).
    + right. run_decorated.
      * exact Ho.
      * exact Hflush.
      * cbn. rewrite Hr'. by apply (select_rewritten _ _ r).
      * exists w'. split; [done|]. rewrite Ht. by apply (select_rewritten _ _ r).
Qed.

Lemma construct_lookup (data : dict) c :
  Orm.construct model data !! c
  = if decide (c ∈ attrs model) then Some (attr data c) else None.
Proof.
  unfold Orm.construct. induction (attrs model) as [|c0 cs IH].
  - by destruct (decide _) as [H|_]; [apply elem_of_nil in H|].
  - rewrite fmap_cons, list_to_map_cons. cbn [fst snd].
    destruct (decide (c = c0)) as [->|Hne].
    + rewrite lookup_insert_eq. by rewrite decide_True by (by apply elem_of_cons; left).
    + rewrite lookup_insert_ne, IH by done.
      destruct (decide (c ∈ cs)) as [Hin|Hnin].
      * by rewrite decide_True by (by apply elem_of_cons; right).
      * by rewrite decide_False by (by intros [?|?]%elem_of_cons).
Qed.


(** C6. When a PUT for a stored record succeeds, a GET by the primary key
    of the payload returns the record the PUT returned, and every field of
    that record has the value the payload gave it. *)
Theorem get_after_put_reflects_update (body res : dict) (w w1 : world) :
  NoDup (primary_key model) →
  Routes.default_put model self body w = (Body (RItem res), w1) →
  (∀ c, c ∈ attrs model → attr res c = attr body c)
  ∧ (∃ w2, Repository.get self
             (Repository._get_keys_dict self (Orm.construct model body)) None w1
           = (Return (RItem res), w2))
  ∧ (∃ w2, Routes.default_get self
             (Repository._get_keys_dict self (Orm.construct model body)) w1
           = (Body (RItem res), w2)).
Proof.
  intros Hnd Hput. set (item := Orm.construct model body) in *.
  unfold Routes.default_put in Hput. fold item in Hput.
  pose proof (keys_dict_valid item Hnd) as Hk.
  destruct (select (ident item) (table w)) as [r|] eqn:Hsel.
  - destruct (update_present item w r Hnd Hsel)
      as [(msg & w' & E)|(w' & E & Hsel')]; rewrite E in Hput; [discriminate|].
    injection Hput as <- <-. split; [|split].
    + intros c Hc. unfold attr at 1. rewrite updated_lookup.
      unfold item at 1. rewrite construct_lookup. by rewrite !decide_True.
    + destruct (get_run _ w' Hk) as (w2 & -> & _).
      rewrite keys_dict_ident, Hsel'. by eexists.
    + unfold Routes.default_get. destruct (get_run _ w' Hk) as (w2 & -> & _).
      rewrite keys_dict_ident, Hsel'. by eexists.
  - destruct (update_absent item w Hnd Hsel) as (w' & E & _).
    rewrite E in Hput. discriminate.
Qed.

(** *** [find] *)

Lemma matches_without_none (kwargs r : dict) :
  Orm.matches (without_none kwargs) r
  ↔ ∀ k v, kwargs !! k = Some v → v ≠ VNone → attr r k = v.
Proof.
  unfold Orm.matches, without_none, map_Forall. split.
  - intros H k v Hk Hv. apply H. by apply map_lookup_filter_Some.
  - intros Hall k v Hkv. apply map_lookup_filter_Some in Hkv as [Hk Hv].
    by apply Hall.
Qed.

Lemma without_none_idemp (kwargs : dict) :
  without_none (without_none kwargs) = without_none kwargs.
Proof.
  unfold without_none. apply map_eq. intros k. apply option_eq. intros v.
  rewrite !map_lookup_filter_Some. cbn. tauto.
Qed.

Lemma without_none_all_none (kwargs : dict) :
  map_Forall (λ _ v, v = VNone) kwargs → without_none kwargs = ∅.
Proof.
  intros H. unfold without_none. apply map_eq. intros k. rewrite lookup_empty.
  apply map_lookup_filter_None. right. intros v Hk. cbn. intros Hv.
  by apply Hv, (H k).
Qed.

Lemma filter_matches_empty (tbl : list dict) :
  filter (Orm.matches ∅) tbl = tbl.
Proof.
  induction tbl as [|r tbl IH]; [done|].
  rewrite filter_cons, decide_True by apply map_Forall_empty. by rewrite IH.
Qed.

(** C7. The filtered search returns exactly the stored records whose
    fields equal every filter value that was supplied (every one that is
    not [None]): each such record is in the result and nothing else is. *)
Theorem find_returns_exactly_the_matching (kwargs : dict) (w : world) :
  filterable model kwargs →
  unique_keys model (table w) →
  ∃ l w',
    Repository.find self None kwargs w = (Return (RList l), w')
    ∧ Routes.default_find self kwargs w = (Body (RList l), w')
    ∧ ∀ r, r ∈ l ↔
           r ∈ table w ∧ ∀ k v, kwargs !! k = Some v → v ≠ VNone → attr r k = v.
Proof.
  intros Hf Hu. destruct (find_run kwargs w Hf Hu) as (w' & E & _).
  eexists _, w'. split; [exact E|]. split.
  - unfold Routes.default_find. by rewrite E.
  - intros r. rewrite list_elem_of_filter, matches_without_none. tauto.
Qed.

(** C10. Parameters whose value is [None] take no part in the filter:
    dropping them from the call changes nothing.  When every parameter is
    unset the search returns all the stored records. *)
Theorem find_ignores_none_parameters (kwargs : dict) (w : world) :
  Repository.find self None kwargs w
  = Repository.find self None (without_none kwargs) w
  ∧ (map_Forall (λ _ v, v = VNone) kwargs →
     unique_keys model (table w) →
     ∃ w', Repository.find self None kwargs w = (Return (RList (table w)), w')
           ∧ Routes.default_find self kwargs w = (Body (RList (table w)), w')).
Proof.
  split.
  - unfold Repository.find. by rewrite without_none_idemp.
  - intros Hnone Hu.
    assert (filterable model kwargs) as Hf.
    { intros k v Hk Hv. by destruct Hv; apply (Hnone k). }
    destruct (find_run kwargs w Hf Hu) as (w' & E & _).
    rewrite (without_none_all_none _ Hnone), filter_matches_empty in E.
    exists w'. split; [done|]. unfold Routes.default_find. by rewrite E.
Qed.

(** *** [patch] *)

Lemma filter_none_matching {A} (P : A → Prop) `{!∀ x, Decision (P x)} (l : list A) :
  Forall (λ x, ¬ P x) l → filter P l = [].
Proof.
  induction 1 as [|x l Hx _ IH]; [done|]. by rewrite filter_cons, decide_False.
Qed.

Lemma key_mismatch_no_match (kwargs r : dict) :
  valid_keys model kwargs →
  map_Forall (λ _ v, v ≠ VNone) kwargs →
  ident r ≠ attr kwargs <$> primary_key model →
  ¬ Orm.matches (without_none kwargs) r.
Proof.
  intros [_ Hk] Hnn Hne Hm. apply Hne. unfold Orm.primary_key_from_instance.
  apply list_fmap_ext. intros i k Hi.
  rewrite Forall_forall in Hk.
  destruct (Hk k) as [v Hv]; [by eapply list_elem_of_lookup_2|].
  rewrite matches_without_none in Hm.
  rewrite (Hm k v Hv (Hnn k v Hv)). unfold attr. by rewrite Hv.
Qed.

(** The partial update of a key that matches nothing: the search gives the
    empty list, which is not [None], and indexing it fails. *)
Lemma patch_of_absent_key (kwargs item : dict) (w : world) :
  filterable model kwargs →
  (∀ r, r ∈ table w → ¬ Orm.matches (without_none kwargs) r) →
  ∃ w', Repository.patch self kwargs None (without_none item) w
        = (Raise IndexError, w')
        ∧ Routes.default_patch self kwargs item w = (Unhandled IndexError, w')
        ∧ table w' = table w.
Proof.
  intros Hf Habs.
  assert (Repository.patch self kwargs None (without_none item) w
          = (Raise IndexError, Orm.close (next_session w) (Orm.Session w).2)) as E.
  { unfold Repository.patch. apply transactional_raise.
    rewrite run_bind, find_in_session by (done || apply pending_Session).
    rewrite filter_none_matching by (by apply Forall_forall). done. }
  eexists. split; [exact E|]. split; [|done].
  unfold Routes.default_patch. by rewrite E.
Qed.

(** *** How many sessions an operation opens *)

Lemma get_opens_one_session keys w :
  valid_keys model keys →
  ∃ evs, log (Repository.get self keys None w).2 = log w ++ evs
         ∧ opened_sessions evs = [next_session w].
Proof.
  intros Hk. destruct (get_run keys w Hk) as (w' & -> & _ & Hl & _).
  eexists. split; [exact Hl|done].
Qed.

Lemma delete_opens_two_sessions keys w :
  valid_keys model keys →
  ∃ evs, log (Repository.delete self keys None w).2 = log w ++ evs
         ∧ opened_sessions evs = [next_session w; S (next_session w)].
Proof.
  intros Hk.
  destruct (select (attr keys <$> primary_key model) (table w)) as [r|] eqn:Hsel.
  - destruct (delete_present keys w r Hk Hsel) as (w' & -> & _ & Hl).
    eexists. split; [exact Hl|done].
  - destruct (delete_absent keys w Hk Hsel) as (w' & -> & _ & Hl).
    eexists. split; [exact Hl|done].
Qed.

(** *** What every operation keeps *)

Lemma preserves_ret {A} I (a : A) : preserves I (mret a : M A).
Proof. by intros w. Qed.

Lemma preserves_raise {A} I e : preserves I (raise e : M A).
Proof. by intros w. Qed.

Lemma preserves_bind {A B} I (m : M A) (f : A → M B) :
  preserves I m → (∀ a, preserves I (f a)) → preserves I (m ≫= f).
Proof.
  intros Hm Hf w Hw. rewrite run_bind. specialize (Hm w Hw).
  destruct (m w) as [[a|e] w1]; [by apply Hf|done].
Qed.

Lemma preserves_for_each {A B} I (f : A → M B) l :
  (∀ a, preserves I (f a)) → preserves I (for_each f l).
Proof.
  intros Hf. induction l as [|a l IH]; [apply preserves_ret|].
  cbn [for_each]. apply preserves_bind; [done|]. intros b.
  apply preserves_bind; [done|]. intros bs. apply preserves_ret.
Qed.

(** Computations that only read: the state comes back as it was. *)
Lemma view_reads s w : (view s w).2 = w.
Proof. unfold Orm.view. by destruct (flush _ _). Qed.

Lemma preserves_view I s : preserves I (view s).
Proof. intros w Hw. by rewrite view_reads. Qed.

Lemma preserves_refresh I s r : preserves I (refresh s r).
Proof.
  unfold Orm.refresh. apply preserves_bind; [apply preserves_view|].
  intros tbl. destruct (select _ tbl); [apply preserves_ret|apply preserves_raise].
Qed.

Lemma preserves_Session_get I s keys :
  preserves I (Orm.Session_get model (engine self) s keys).
Proof.
  unfold Orm.Session_get. destruct (decide _); [apply preserves_raise|].
  destruct (decide _); [|apply preserves_raise].
  apply preserves_bind; [apply preserves_view|]. intros tbl. apply preserves_ret.
Qed.

Lemma preserves_query I s filter_by :
  preserves I (Orm.query_filter_by_all model (engine self) s filter_by).
Proof.
  unfold Orm.query_filter_by_all. destruct (decide _); [|apply preserves_raise].
  apply preserves_bind; [apply preserves_view|]. intros tbl. apply preserves_ret.
Qed.

(** The primary keys stay unique through a flush, on a store that
    enforces the key. *)
Lemma modify_unique key r tbl :
  unique_keys model tbl →
  (∀ x, x ∈ tbl → ident x ≠ key → ident x ≠ ident r) →
  unique_keys model ((λ x, if decide (ident x = key) then r else x) <$> tbl).
Proof.
  unfold unique_keys. induction tbl as [|x tbl IH]; intros Hnd Hfresh; [done|].
  rewrite fmap_cons in Hnd. apply NoDup_cons in Hnd as [Hx Hnd].
  rewrite !fmap_cons. apply NoDup_cons. split.
  - rewrite <- list_fmap_compose. intros Hin.
    apply list_elem_of_fmap in Hin as (y & Hy & Hyin). cbn in Hy.
    assert (ident y ≠ ident x) as Hyx
      by (intros E; apply Hx; rewrite <- E; by apply list_elem_of_fmap_2).
    destruct (decide (ident x = key)) as [Ex|Nx];
      destruct (decide (ident y = key)) as [Ey|Ny].
    + congruence.
    + apply (Hfresh y); [by apply elem_of_cons; right|done|done].
    + apply (Hfresh x); [by apply elem_of_cons; left|done|done].
    + congruence.
  - apply IH; [done|]. intros y Hy. apply Hfresh. by apply elem_of_cons; right.
Qed.

Lemma apply_change_unique c tbl tbl' :
  pk_enforced model (engine self) →
  unique_keys model tbl →
  Orm.apply_change model (engine self) tbl c = inr tbl' →
  unique_keys model tbl'.
Proof.
  intros Hpk Hu. destruct c as [r|key r|key]; cbn [Orm.apply_change].
  - destruct (violation _ tbl r) eqn:Hv; [done|]. intros [= <-].
    unfold unique_keys. rewrite fmap_app. apply NoDup_app. split; [done|].
    split; [|apply NoDup_singleton].
    intros k Hk Hk'. apply list_elem_of_singleton in Hk'. subst k.
    apply list_elem_of_fmap in Hk as (x & Hx & Hxin).
    pose proof (accepted_is_new _ _ Hpk Hv) as Hnew.
    rewrite Forall_forall in Hnew. by apply (Hnew x).
  - destruct (select key tbl) as [old|]; [|done].
    destruct (decide (r = old)); [by intros [= <-]|].
    destruct (violation _ _ r) eqn:Hv; [done|]. intros [= <-].
    apply modify_unique; [done|]. intros x Hx Hne.
    pose proof (accepted_is_new _ _ Hpk Hv) as Hnew.
    rewrite Forall_forall in Hnew. apply Hnew. by apply list_elem_of_filter.
  - intros [= <-]. unfold unique_keys.
    eapply sublist_NoDup; [exact Hu|]. apply fmap_sublist, sublist_filter.
Qed.

Lemma flush_unique cs tbl tbl' :
  pk_enforced model (engine self) →
  unique_keys model tbl → flush cs tbl = inr tbl' → unique_keys model tbl'.
Proof.
  intros Hpk. revert tbl. induction cs as [|c cs IH]; intros tbl Hu; cbn [Orm.flush].
  - by intros [= <-].
  - destruct (Orm.apply_change _ _ tbl c) as [e|tbl1] eqn:E; [done|].
    apply IH. by eapply apply_change_unique.
Qed.

Lemma preserves_record I s c : session_blind I → preserves I (Orm.record s c).
Proof. intros HI w Hw. by apply (HI w). Qed.

Lemma preserves_sqlmodel_update I s item_db data :
  session_blind I → preserves I (Orm.sqlmodel_update model s item_db data).
Proof.
  intros HI. unfold Orm.sqlmodel_update. apply preserves_bind.
  - by apply preserves_record.
  - intros _. apply preserves_ret.
Qed.

(** With a session supplied the decorator adds nothing to the body. *)
Lemma preserves_get_in_session I keys s :
  preserves I (Repository.get self keys (Some s)).
Proof.
  unfold Repository.get, Repository.transactional.
  apply preserves_bind; [apply preserves_Session_get|]. intros r. apply preserves_ret.
Qed.

Lemma preserves_find_in_session I kwargs s :
  preserves I (Repository.find self (Some s) kwargs).
Proof.
  unfold Repository.find, Repository.transactional.
  apply preserves_bind; [apply preserves_query|]. intros r. apply preserves_ret.
Qed.

Lemma preserves_update_body I item s :
  session_blind I →
  preserves I
    (item_db ← Repository.get self (Repository._get_keys_dict self item) (Some s);
     if truthy item_db then
       match item_db with
       | RItem r =>
           let item_data := Orm.model_dump item in
           r' ← Orm.sqlmodel_update model s r item_data;
           mret (RItem r')
       | _ => raise AttributeError
       end
     else mret item_db).
Proof.
  intros HI. apply preserves_bind; [apply preserves_get_in_session|].
  intros [|r|l]; cbn [truthy].
  - apply preserves_ret.
  - apply preserves_bind; [by apply preserves_sqlmodel_update|].
    intros r'. apply preserves_ret.
  - destruct (negb _); [apply preserves_raise|apply preserves_ret].
Qed.

Lemma preserves_patch_body I keys kwargs s :
  session_blind I →
  preserves I
    (res ← Repository.find self (Some s) keys;
     match res with
     | RNone => raise TypeError
     | RItem _ => raise TypeError
     | RList res =>
         if decide (1 < length res)%nat then
           raise (if decide (size kwargs = 1%nat) then AttributeError else TypeError)
         else
           match res with
           | [] => raise IndexError
           | item_db :: _ =>
               item_db' ← Orm.sqlmodel_update model s item_db kwargs;
               mret (RItem item_db')
           end
     end).
Proof.
  intros HI. apply preserves_bind; [apply preserves_find_in_session|].
  intros [|r|l]; try apply preserves_raise.
  destruct (decide _); [apply preserves_raise|].
  destruct l as [|item_db l]; [apply preserves_raise|].
  apply preserves_bind; [by apply preserves_sqlmodel_update|].
  intros r'. apply preserves_ret.
Qed.


#[local] Abbreviation keyed := (λ w : world, unique_keys (_model_type self) (table w)).

Lemma keyed_blind : session_blind keyed.
Proof. intros w w' Ht _. by rewrite Ht. Qed.

Lemma preserves_commit s :
  pk_enforced model (engine self) → preserves keyed (commit s).
Proof.
  intros Hpk w Hw. unfold Orm.commit.
  destruct (flush _ _) as [e|tbl] eqn:E; [done|]. cbn. by eapply flush_unique.
Qed.

Lemma preserves_with_Session {A} (body : nat → M A) :
  (∀ s, preserves keyed (body s)) → preserves keyed (Orm.with_Session body).
Proof.
  intros Hbody w Hw. unfold Orm.with_Session. cbn.
  specialize (Hbody (next_session w) (Orm.Session w).2 Hw).
  cbn in Hbody. by destruct (body _ _) as [r w2].
Qed.

Lemma preserves_transactional origin session :
  pk_enforced model (engine self) →
  (∀ s, preserves keyed (origin s)) →
  preserves keyed (transactional origin session).
Proof.
  intros Hpk Ho. unfold Repository.transactional.
  destruct session as [s|]; [apply Ho|].
  apply preserves_with_Session. intros s.
  apply preserves_bind; [apply Ho|]. intros res.
  apply preserves_bind; [by apply preserves_commit|]. intros _.
  destruct (truthy res); [|apply preserves_ret].
  destruct res as [|r|l].
  - apply preserves_ret.
  - apply preserves_bind; [apply preserves_refresh|]. intros r'. apply preserves_ret.
  - apply preserves_bind; [apply preserves_for_each; intros r; apply preserves_refresh|].
    intros l'. apply preserves_ret.
Qed.

(** X2. On a store that enforces the primary key, every operation of the
    repository keeps the primary keys of the stored records unique: with
    or without a session of the caller, whatever the arguments, whether it
    returns or raises. *)
Theorem operations_keep_keys_unique
    (session : option nat) (keys kwargs item : dict) (w : world) :
  pk_enforced model (engine self) →
  unique_keys model (table w) →
  unique_keys model (table (Repository.add self item session w).2)
  ∧ unique_keys model (table (Repository.get self keys session w).2)
  ∧ unique_keys model (table (Repository.find self session kwargs w).2)
  ∧ unique_keys model (table (Repository.delete self keys session w).2)
  ∧ unique_keys model (table (Repository.update self item session w).2)
  ∧ unique_keys model (table (Repository.patch self keys session kwargs w).2).
Proof.
  intros Hpk Hw.
  assert (∀ k s', preserves keyed (Repository.get self k s')) as Hget.
  { intros k s'. apply preserves_transactional; [done|]. intros s.
    apply preserves_bind; [apply preserves_Session_get|]. intros r. apply preserves_ret. }
  repeat split.
  - apply (preserves_transactional _ session Hpk); [|done]. intros s.
    apply preserves_bind; [apply preserves_record, keyed_blind|]. intros _.
    apply preserves_bind; [by apply preserves_commit|]. intros _.
    apply preserves_bind; [apply preserves_refresh|]. intros r. apply preserves_ret.
  - by apply Hget.
  - apply (preserves_transactional _ session Hpk); [|done]. intros s.
    apply preserves_bind; [apply preserves_query|]. intros l. apply preserves_ret.
  - apply (preserves_transactional _ session Hpk); [|done]. intros s.
    apply preserves_bind; [apply Hget|]. intros [|r|l]; cbn [truthy].
    + apply preserves_raise.
    + apply preserves_bind; [apply preserves_record, keyed_blind|].
      intros _. apply preserves_ret.
    + destruct (negb _); apply preserves_raise.
  - apply (preserves_transactional _ session Hpk); [|done]. intros s.
    apply preserves_update_body, keyed_blind.
  - apply (preserves_transactional _ session Hpk); [|done]. intros s.
    apply preserves_patch_body, keyed_blind.
Qed.

(** *** Writing back a loaded record *)

(** The decorator around a body that loaded [r], changed it into [r'] under
    the same key and returned it: nothing is written when nothing changed,
    a rejected UPDATE raises and writes nothing, otherwise the row of [r]
    becomes [r']. *)
Lemma decorated_write origin w w2 r r' :
  origin (next_session w) (Orm.Session w).2 = (Return (RItem r'), w2) →
  table w2 = table w →
  Orm.pending w2 (next_session w) = [Modify (ident r) r'] →
  select (ident r) (table w) = Some r →
  ident r' = ident r →
  ∃ w',
    (transactional origin None w, table w')
    = (if decide (r' = r) then ((Return (RItem r'), w'), table w)
       else
         match violation (engine self)
                 (filter (λ x, ident x ≠ ident r) (table w)) r' with
         | Some msg => ((Raise (IntegrityError msg), w'), table w)
         | None =>
             ((Return (RItem r'), w'),
              (λ x, if decide (ident x = ident r) then r' else x) <$> table w)
         end).
Proof.
  intros Ho Ht2 Hp2 Hsel Hid.
  assert (flush (Orm.pending w2 (next_session w)) (table w2)
          = if decide (r' = r) then inr (table w)
            else
              match violation (engine self)
                      (filter (λ x, ident x ≠ ident r) (table w)) r' with
              | Some msg => inl (IntegrityError msg)
              | None =>
                  inr ((λ x, if decide (ident x = ident r) then r' else x)
                         <$> table w)
              end) as Hflush.
  { rewrite Hp2, Ht2. cbn [Orm.flush Orm.apply_change]. rewrite Hsel.
    destruct (decide (r' = r)); [done|]. by destruct (violation _ _ _). }
  destruct (decide (r' = r)) as [E|NE].
  - destruct (transactional_return origin w _ w2 _ Ho Hflush)
      as (w' & -> & Ht & _); [by cbn; rewrite E|].
    exists w'. by rewrite Ht.
  - destruct (violation _ _ _) as [msg|] eqn:Hv.
    + rewrite (transactional_commit_raise origin w _ w2 _ Ho Hflush).
      exists (Orm.close (next_session w) w2). cbn. by rewrite Ht2.
    + destruct (transactional_return origin w _ w2 _ Ho Hflush)
        as (w' & -> & Ht & _).
      { cbn. rewrite Hid. by apply (select_rewritten _ _ r). }
      exists w'. by rewrite Ht.
Qed.

(** *** Searching by the primary key *)

Lemma valid_keys_in_pk (keys : dict) k :
  NoDup (primary_key model) → valid_keys model keys →
  is_Some (keys !! k) → k ∈ primary_key model.
Proof.
  intros Hnd [Hsize Hall] Hk.
  assert ((list_to_set (primary_key model) : gset string) = dom keys) as Hdom.
  { apply set_subseteq_size_eq.
    - intros x Hx. apply elem_of_list_to_set in Hx. apply elem_of_dom.
      rewrite Forall_forall in Hall. by apply Hall.
    - by rewrite size_dom, Hsize, size_list_to_set. }
  apply elem_of_dom in Hk. rewrite <- Hdom in Hk. by apply elem_of_list_to_set in Hk.
Qed.

Lemma matches_key (keys r : dict) :
  NoDup (primary_key model) → valid_keys model keys →
  map_Forall (λ _ v, v ≠ VNone) keys →
  Orm.matches (without_none keys) r ↔ ident r = attr keys <$> primary_key model.
Proof.
  intros Hnd Hk Hnn. split.
  - intros Hm. destruct (decide (ident r = attr keys <$> primary_key model)); [done|].
    by destruct (key_mismatch_no_match keys r).
  - intros Hid. apply matches_without_none. intros k v Hkv _.
    assert (k ∈ primary_key model) as Hin by (by eapply valid_keys_in_pk).
    unfold Orm.primary_key_from_instance in Hid.
    rewrite (list_fmap_inj_1 _ _ _ k Hid Hin). unfold attr. by rewrite Hkv.
Qed.

Lemma filter_key_unique tbl key :
  unique_keys model tbl →
  filter (λ x, ident x = key) tbl = from_option (λ r, [r]) [] (select key tbl).
Proof.
  unfold unique_keys, Orm.select_by_key.
  induction tbl as [|x tbl IH]; intros Hnd; [done|].
  rewrite fmap_cons in Hnd. apply NoDup_cons in Hnd as [Hx Hnd].
  rewrite filter_cons. destruct (decide (ident x = key)) as [E|NE]; [|by apply IH].
  cbn. f_equal. apply filter_none_matching, Forall_forall. intros y Hy Ey.
  apply Hx. rewrite E, <- Ey. by apply list_elem_of_fmap_2.
Qed.

Lemma filter_by_key (keys : dict) tbl :
  NoDup (primary_key model) → valid_keys model keys →
  map_Forall (λ _ v, v ≠ VNone) keys →
  unique_keys model tbl →
  filter (Orm.matches (without_none keys)) tbl
  = from_option (λ r, [r]) [] (select (attr keys <$> primary_key model) tbl).
Proof.
  intros Hnd Hk Hnn Hu. rewrite <- filter_key_unique by done.
  apply list_filter_iff. intros r. by apply matches_key.
Qed.

(** *** The outcome of [update] and of [patch] on a stored record *)

Lemma update_outcome item w r :
  NoDup (primary_key model) →
  select (ident item) (table w) = Some r →
  ∃ w',
    (Repository.update self item None w, table w')
    = (if decide (filter (λ kv, kv.1 ∈ attrs model) item ∪ r = r)
       then ((Return (RItem (filter (λ kv, kv.1 ∈ attrs model) item ∪ r)), w'),
             table w)
       else
         match violation (engine self)
                 (filter (λ x, ident x ≠ ident r) (table w))
                 (filter (λ kv, kv.1 ∈ attrs model) item ∪ r) with
         | Some msg => ((Raise (IntegrityError msg), w'), table w)
         | None =>
             ((Return (RItem (filter (λ kv, kv.1 ∈ attrs model) item ∪ r)), w'),
              (λ x, if decide (ident x = ident r)
                    then filter (λ kv, kv.1 ∈ attrs model) item ∪ r else x)
                <$> table w)
         end).
Proof.
  intros Hnd Hsel. unfold Repository.update.
  destruct (update_in_session item w Hnd) as (w2 & Ho & Ht2 & Hl2 & Hp2).
  rewrite Hsel in Ho, Hp2. cbn [from_option] in Ho, Hp2.
  destruct (select_Some _ _ _ Hsel) as [Hr _].
  rewrite <- Hr in Hp2, Hsel.
  apply (decorated_write _ w w2 r _ Ho Ht2 Hp2 Hsel).
  rewrite Hr. by apply updated_ident.
Qed.

Lemma patched_ident (kwargs r : dict) :
  (∀ k, k ∈ primary_key model → kwargs !! k = None) →
  ident (filter (λ kv, kv.1 ∈ attrs model) kwargs ∪ r) = ident r.
Proof.
  intros Hno. unfold Orm.primary_key_from_instance.
  apply list_fmap_ext. intros i k Hk. unfold attr.
  rewrite updated_lookup, Hno; [done|]. by eapply list_elem_of_lookup_2.
Qed.

Lemma keys_filterable (keys : dict) :
  NoDup (primary_key model) → primary_key model ⊆ attrs model →
  valid_keys model keys → filterable model keys.
Proof.
  intros Hnd Hsub Hk k v Hkv _. apply Hsub.
  eapply valid_keys_in_pk; [done|done|by eexists].
Qed.

Lemma patch_outcome keys kwargs w r :
  NoDup (primary_key model) → primary_key model ⊆ attrs model →
  valid_keys model keys → map_Forall (λ _ v, v ≠ VNone) keys →
  unique_keys model (table w) →
  select (attr keys <$> primary_key model) (table w) = Some r →
  (∀ k, k ∈ primary_key model → kwargs !! k = None) →
  ∃ w',
    (Repository.patch self keys None kwargs w, table w')
    = (if decide (filter (λ kv, kv.1 ∈ attrs model) kwargs ∪ r = r)
       then ((Return (RItem (filter (λ kv, kv.1 ∈ attrs model) kwargs ∪ r)), w'),
             table w)
       else
         match violation (engine self)
                 (filter (λ x, ident x ≠ ident r) (table w))
                 (filter (λ kv, kv.1 ∈ attrs model) kwargs ∪ r) with
         | Some msg => ((Raise (IntegrityError msg), w'), table w)
         | None =>
             ((Return (RItem (filter (λ kv, kv.1 ∈ attrs model) kwargs ∪ r)), w'),
              (λ x, if decide (ident x = ident r)
                    then filter (λ kv, kv.1 ∈ attrs model) kwargs ∪ r else x)
                <$> table w)
         end).
Proof.
  intros Hnd Hsub Hk Hnn Hu Hsel Hno. unfold Repository.patch.
  destruct (select_Some _ _ _ Hsel) as [Hr _].
  rewrite <- Hr in Hsel.
  eapply (decorated_write _ w _ r _); [| | |exact Hsel|by apply patched_ident].
  - rewrite run_bind, find_in_session
      by (by apply keys_filterable || apply pending_Session).
    change (table (Orm.Session w).2) with (table w).
    rewrite filter_by_key by done. rewrite <- Hr, Hsel. cbn [from_option length].
    rewrite decide_False by lia. reflexivity.
  - done.
  - cbn [Orm.pending sessions]. unfold Orm.pending. cbn [sessions].
    rewrite lookup_insert_eq. cbn [default].
    change (sessions (Orm.Session w).2) with (<[next_session w := []]> (sessions w)).
    by rewrite lookup_insert_eq.
Qed.

Lemma patched_attr (item r : dict) c :
  attr (filter (λ kv, kv.1 ∈ attrs model) (without_none item) ∪ r) c
  = match item !! c with
    | Some v => if decide (v ≠ VNone ∧ c ∈ attrs model) then v else attr r c
    | None => attr r c
    end.
Proof.
  unfold attr. rewrite updated_lookup. unfold without_none.
  destruct (item !! c) as [v|] eqn:E.
  - destruct (decide (v ≠ VNone)) as [Hv|Hv].
    + assert (filter (λ kv, kv.2 ≠ VNone) item !! c = Some v) as ->
        by (by apply map_lookup_filter_Some).
      destruct (decide (c ∈ attrs model)).
      * by rewrite decide_True.
      * by rewrite decide_False by tauto.
    + assert (filter (λ kv, kv.2 ≠ VNone) item !! c = None) as ->.
      { apply map_lookup_filter_None. right. intros v' Hv'. cbn.
        rewrite E in Hv'. by injection Hv' as <-. }
      by rewrite decide_False by tauto.
  - assert (filter (λ kv, kv.2 ≠ VNone) item !! c = None) as ->
      by (apply map_lookup_filter_None; by left).
    done.
Qed.

Lemma rewritten_only tbl r r' :
  unique_keys model tbl → r ∈ tbl →
  (λ x, if decide (ident x = ident r) then r' else x) <$> tbl
  = (λ x, if decide (x = r) then r' else x) <$> tbl.
Proof.
  intros Hu Hr. apply list_fmap_ext. intros i x Hx.
  apply list_elem_of_lookup_2 in Hx.
  destruct (decide (ident x = ident r)) as [E|NE].
  - pose proof (select_unique tbl x Hu Hx) as H1.
    pose proof (select_unique tbl r Hu Hr) as H2.
    rewrite E, H2 in H1. injection H1 as <-. by rewrite decide_True.
  - rewrite decide_False; [done|]. by intros ->.
Qed.

Lemma rewritten_same (tbl : list dict) (r : dict) :
  (λ x, if decide (x = r) then r else x) <$> tbl = tbl.
Proof.
  rewrite <- (list_fmap_id tbl) at 2. apply list_fmap_ext. intros i x _.
  by destruct (decide (x = r)) as [->|].
Qed.

(** X3. A PATCH that succeeds on a stored record sets exactly the fields
    of the body that are not [None] (and are fields of the model); every
    other attribute keeps its stored value, every other record is left
    alone, and a GET by the same key returns the patched record. *)
Theorem patch_sets_the_given_fields (kwargs item r res : dict) (w w1 : world) :
  NoDup (primary_key model) → primary_key model ⊆ attrs model →
  valid_keys model kwargs → map_Forall (λ _ v, v ≠ VNone) kwargs →
  unique_keys model (table w) →
  r ∈ table w → ident r = attr kwargs <$> primary_key model →
  (∀ k, k ∈ primary_key model → item !! k = None) →
  Routes.default_patch self kwargs item w = (Body (RItem res), w1) →
  (∀ c, attr res c
        = match item !! c with
          | Some v => if decide (v ≠ VNone ∧ c ∈ attrs model) then v else attr r c
          | None => attr r c
          end)
  ∧ table w1 = (λ x, if decide (x = r) then res else x) <$> table w
  ∧ ∃ w2, Routes.default_get self kwargs w1 = (Body (RItem res), w2).
Proof.
  intros Hnd Hsub Hk Hnn Hu Hr Hid Hno Hpatch.
  assert (select (attr kwargs <$> primary_key model) (table w) = Some r) as Hsel
    by (rewrite <- Hid; by apply select_unique).
  assert (∀ k, k ∈ primary_key model → without_none item !! k = None) as Hno'.
  { intros k Hin. apply map_lookup_filter_None. left. by apply Hno. }
  destruct (patch_outcome kwargs (without_none item) w r Hnd Hsub Hk Hnn Hu Hsel Hno')
    as (w' & E).
  unfold Routes.default_patch in Hpatch.
  set (r' := filter (λ kv, kv.1 ∈ attrs model) (without_none item) ∪ r) in *.
  assert (Repository.patch self kwargs None (without_none item) w
          = (Return (RItem r'), w')
          ∧ table w' = (λ x, if decide (x = r) then r' else x) <$> table w
          ∧ select (attr kwargs <$> primary_key model) (table w') = Some r')
    as (Hrun & Ht & Hsel').
  { destruct (decide (r' = r)) as [Er|Nr].
    - apply pair_equal_spec in E as [E1 E2]. split; [exact E1|]. rewrite E2, Er.
      split; [by rewrite rewritten_same|exact Hsel].
    - destruct (violation _ _ r') as [msg|].
      + apply pair_equal_spec in E as [E1 E2]. rewrite E1 in Hpatch. discriminate.
      + apply pair_equal_spec in E as [E1 E2]. split; [exact E1|].
        rewrite E2, rewritten_only by done. split; [done|].
        rewrite <- rewritten_only, <- Hid by done.
        apply (select_rewritten _ _ r); [by rewrite Hid|].
        by apply patched_ident. }
  rewrite Hrun in Hpatch. injection Hpatch as <- <-.
  split; [intros c; apply patched_attr|]. split; [done|].
  unfold Routes.default_get. destruct (get_run kwargs w' Hk) as (w2 & -> & _).
  rewrite Hsel'. by eexists.
Qed.

(** X4. A PATCH whose body sets nothing (every field [None]) returns the
    stored record as it is and leaves the stored records unchanged. *)
Theorem empty_patch_changes_nothing (kwargs item r : dict) (w : world) :
  NoDup (primary_key model) → primary_key model ⊆ attrs model →
  valid_keys model kwargs → map_Forall (λ _ v, v ≠ VNone) kwargs →
  unique_keys model (table w) →
  r ∈ table w → ident r = attr kwargs <$> primary_key model →
  map_Forall (λ _ v, v = VNone) item →
  ∃ w', Routes.default_patch self kwargs item w = (Body (RItem r), w')
        ∧ table w' = table w.
Proof.
  intros Hnd Hsub Hk Hnn Hu Hr Hid Hnone.
  assert (select (attr kwargs <$> primary_key model) (table w) = Some r) as Hsel
    by (rewrite <- Hid; by apply select_unique).
  pose proof (without_none_all_none item Hnone) as Hempty.
  destruct (patch_outcome kwargs (without_none item) w r Hnd Hsub Hk Hnn Hu Hsel)
    as (w' & E); [by intros k _; rewrite Hempty|].
  rewrite Hempty, map_filter_empty, (left_id_L ∅ (∪)) in E.
  rewrite decide_True in E by done. apply pair_equal_spec in E as [E1 E2].
  exists w'. unfold Routes.default_patch. by rewrite Hempty, E1.
Qed.

(** X5. A PUT that changes a stored record and that the store rejects for
    a constraint is not translated as a POST is: the [IntegrityError]
    leaves the handler unhandled (the framework answers 500, not 409), and
    the stored records are unchanged. *)
Theorem rejected_put_is_500 (body r : dict) (msg : string) (w : world) :
  NoDup (primary_key model) →
  select (ident (Orm.construct model body)) (table w) = Some r →
  filter (λ kv, kv.1 ∈ attrs model) (Orm.construct model body) ∪ r ≠ r →
  violation (engine self)
    (filter (λ x, ident x ≠ ident r) (table w))
    (filter (λ kv, kv.1 ∈ attrs model) (Orm.construct model body) ∪ r) = Some msg →
  ∃ w', Routes.default_put model self body w = (Unhandled (IntegrityError msg), w')
        ∧ Web.raised_status (Routes.default_put model self body w).1 = Some 500
        ∧ table w' = table w.
Proof.
  intros Hnd Hsel Hne Hv.
  destruct (update_outcome _ w r Hnd Hsel) as (w' & E).
  rewrite decide_False, Hv in E by done. apply pair_equal_spec in E as [E1 E2].
  exists w'. unfold Routes.default_put. by rewrite E1.
Qed.

Lemma update_twice (item r : dict) :
  filter (λ kv, kv.1 ∈ attrs model) item
    ∪ (filter (λ kv, kv.1 ∈ attrs model) item ∪ r)
  = filter (λ kv, kv.1 ∈ attrs model) item ∪ r.
Proof. by rewrite (assoc_L (∪)), (idemp_L (∪)). Qed.

(** X6. PUT is idempotent: after a PUT that succeeded on a stored record,
    the same PUT again returns the same record and leaves the stored
    records as the first one left them. *)
Theorem put_is_idempotent (body res : dict) (w w1 : world) :
  NoDup (primary_key model) →
  Routes.default_put model self body w = (Body (RItem res), w1) →
  ∃ w2, Routes.default_put model self body w1 = (Body (RItem res), w2)
        ∧ table w2 = table w1.
Proof.
  intros Hnd Hput. unfold Routes.default_put in *.
  set (item := Orm.construct model body) in *.
  destruct (select (ident item) (table w)) as [r|] eqn:Hsel.
  - destruct (select_Some _ _ _ Hsel) as [Hr _].
    pose proof (updated_ident item r Hr) as Hr'.
    destruct (update_outcome item w r Hnd Hsel) as (w' & E).
    set (r' := filter (λ kv, kv.1 ∈ attrs model) item ∪ r) in *.
    assert (Repository.update self item None w = (Return (RItem r'), w')
            ∧ select (ident item) (table w') = Some r') as [E1 Hsel'].
    { destruct (decide (r' = r)) as [Er|Nr].
      - apply pair_equal_spec in E as [E1 E2]. split; [done|]. by rewrite E2, Er.
      - destruct (violation _ _ r') as [msg|];
          apply pair_equal_spec in E as [E1 E2].
        + rewrite E1 in Hput. discriminate.
        + split; [done|]. rewrite E2, <- Hr.
          apply (select_rewritten _ _ r); by rewrite Hr. }
    rewrite E1 in Hput. injection Hput as <- <-.
    destruct (update_outcome item w' r' Hnd Hsel') as (w2 & E').
    assert (filter (λ kv, kv.1 ∈ attrs model) item ∪ r' = r') as Hidem
      by apply update_twice.
    rewrite !Hidem, decide_True in E' by done.
    apply pair_equal_spec in E' as [E2 E3].
    exists w2. by rewrite E2.
  - destruct (update_absent item w Hnd Hsel) as (w' & E & _).
    rewrite E in Hput. discriminate.
Qed.

(** *** Operations one after the other *)

Lemma filter_all_matching {A} (P : A → Prop) `{!∀ x, Decision (P x)} (l : list A) :
  Forall P l → filter P l = l.
Proof.
  induction 1 as [|x l Hx _ IH]; [done|]. by rewrite filter_cons, decide_True, IH.
Qed.

Lemma post_outcome (body : dict) (w w1 : world) (res : pyres) :
  pk_enforced model (engine self) →
  Routes.default_post model self body w = (Body res, w1) →
  res = RItem (Orm.construct model body)
  ∧ table w1 = table w ++ [Orm.construct model body]
  ∧ Forall (λ x, ident x ≠ ident (Orm.construct model body)) (table w).
Proof.
  intros Hpk Hpost. unfold Routes.default_post in Hpost.
  destruct (violation (engine self) (table w) (Orm.construct model body))
    as [msg|] eqn:Hv.
  - destruct (add_rejected _ w msg Hv) as (w' & E & _).
    rewrite E in Hpost. discriminate.
  - destruct (add_accepted _ w Hpk Hv) as (w' & E & Ht & _).
    rewrite E in Hpost. injection Hpost as <- <-.
    split; [done|]. split; [done|]. by apply accepted_is_new.
Qed.

(** X7. Creating a record and then deleting it by its key gives back the
    stored records there were before the two requests. *)
Theorem delete_undoes_post (body : dict) (w w1 : world) (res : pyres) :
  NoDup (primary_key model) →
  pk_enforced model (engine self) →
  Routes.default_post model self body w = (Body res, w1) →
  ∃ w2, Routes.default_delete self
          (Repository._get_keys_dict self (Orm.construct model body)) w1
        = (Body RNone, w2)
        ∧ table w2 = table w.
Proof.
  intros Hnd Hpk Hpost.
  destruct (post_outcome body w w1 res Hpk Hpost) as (_ & Ht1 & Hnew).
  set (item := Orm.construct model body) in *.
  pose proof (keys_dict_valid item Hnd) as Hk.
  assert (select (attr (Repository._get_keys_dict self item) <$> primary_key model)
            (table w1) = Some item) as Hsel
    by (rewrite keys_dict_ident, Ht1; by apply select_appended).
  destruct (delete_present _ w1 item Hk Hsel) as (w2 & E & Ht2 & _).
  exists w2. unfold Routes.default_delete. rewrite E. split; [done|].
  rewrite Ht2, keys_dict_ident, Ht1, filter_app.
  rewrite filter_all_matching by done.
  rewrite filter_cons, decide_False by (by intros H; apply H). cbn.
  by rewrite app_nil_r.
Qed.

(** X8. On a store that enforces the primary key, repeating a POST that
    succeeded is answered with 409, and stores nothing more. *)
Theorem second_post_is_409 (body : dict) (w w1 : world) (res : pyres) :
  pk_enforced model (engine self) →
  Routes.default_post model self body w = (Body res, w1) →
  ∃ msg w2, Routes.default_post model self body w1 = (HTTPException 409 msg, w2)
            ∧ table w2 = table w1.
Proof.
  intros Hpk Hpost.
  destruct (post_outcome body w w1 res Hpk Hpost) as (_ & Ht1 & _).
  set (item := Orm.construct model body) in *.
  destruct (Hpk (table w1) item item) as [msg Hv]; [|done|].
  { rewrite Ht1. apply elem_of_app. right. by apply list_elem_of_singleton. }
  destruct (add_rejected item w1 msg Hv) as (w2 & E & Ht2 & _).
  exists msg, w2. unfold Routes.default_post. fold item. by rewrite E.
Qed.

(** X9. Repeating a DELETE that succeeded is answered with 404 and changes
    nothing: the second request finds the record gone. *)
Theorem second_delete_is_404 (kwargs : dict) (w w1 : world) (res : pyres) :
  valid_keys model kwargs →
  Routes.default_delete self kwargs w = (Body res, w1) →
  ∃ w2, Routes.default_delete self kwargs w1
        = (HTTPException 404 "Item not found", w2)
        ∧ table w2 = table w1.
Proof.
  intros Hk Hdel. unfold Routes.default_delete in *.
  destruct (select (attr kwargs <$> primary_key model) (table w)) as [r|] eqn:Hsel.
  - destruct (delete_present kwargs w r Hk Hsel) as (w' & E & Ht & _).
    rewrite E in Hdel. injection Hdel as <- <-.
    assert (select (attr kwargs <$> primary_key model) (table w') = None) as Hgone
      by (rewrite Ht; apply select_removed).
    destruct (delete_absent kwargs w' Hk Hgone) as (w2 & E2 & Ht2 & _).
    exists w2. by rewrite E2.
  - destruct (delete_absent kwargs w Hk Hsel) as (w' & E & _).
    rewrite E in Hdel. discriminate.
Qed.

(** X10. Searching by the whole primary key and fetching by it agree: the
    search returns the one record that [get] returns, or the empty list
    when [get] returns [None]. *)
Theorem find_by_key_agrees_with_get (keys : dict) (w w1 : world) (res : pyres) :
  NoDup (primary_key model) → primary_key model ⊆ attrs model →
  valid_keys model keys → map_Forall (λ _ v, v ≠ VNone) keys →
  unique_keys model (table w) →
  Repository.get self keys None w = (Return res, w1) →
  ∃ w2, Repository.find self None keys w
        = (Return (RList match res with RItem r => [r] | _ => [] end), w2).
Proof.
  intros Hnd Hsub Hk Hnn Hu Hget.
  destruct (get_run keys w Hk) as (w' & E & _). rewrite E in Hget.
  injection Hget as <- <-.
  destruct (find_run keys w (keys_filterable keys Hnd Hsub Hk) Hu) as (w2 & -> & _).
  exists w2. rewrite filter_by_key by done.
  by destruct (select _ (table w)).
Qed.

(** *** [add] and [delete] in a session of the caller *)



(** *** Sessions are closed *)

Lemma balanced_nil : balanced [].
Proof. intros s H. by apply elem_of_nil in H. Qed.

Lemma balanced_app evs1 evs2 : balanced evs1 → balanced evs2 → balanced (evs1 ++ evs2).
Proof.
  intros H1 H2 s Hs. apply elem_of_app in Hs as [Hs|Hs]; apply elem_of_app.
  - left. by apply H1.
  - right. by apply H2.
Qed.

Lemma tidy_silent {A} (m : M A) : (∀ w, log (m w).2 = log w) → tidy m.
Proof.
  intros H w. exists []. rewrite H, app_nil_r. split; [done|apply balanced_nil].
Qed.

Lemma tidy_bind {A B} (m : M A) (f : A → M B) :
  tidy m → (∀ a, tidy (f a)) → tidy (m ≫= f).
Proof.
  intros Hm Hf w. rewrite run_bind. destruct (Hm w) as (evs1 & Hl1 & Hb1).
  destruct (m w) as [[a|e] w1]; cbn in *.
  - destruct (Hf a w1) as (evs2 & Hl2 & Hb2). exists (evs1 ++ evs2).
    rewrite Hl2, Hl1, (assoc_L (++)). split; [done|by apply balanced_app].
  - by exists evs1.
Qed.

Lemma tidy_ret {A} (a : A) : tidy (mret a : M A).
Proof. by apply tidy_silent. Qed.

Lemma tidy_raise {A} e : tidy (raise e : M A).
Proof. by apply tidy_silent. Qed.

Lemma tidy_for_each {A B} (f : A → M B) l : (∀ a, tidy (f a)) → tidy (for_each f l).
Proof.
  intros Hf. induction l as [|a l IH]; [apply tidy_ret|].
  cbn [for_each]. apply tidy_bind; [done|]. intros b.
  apply tidy_bind; [done|]. intros bs. apply tidy_ret.
Qed.

Lemma tidy_commit s : tidy (commit s).
Proof.
  intros w. unfold Orm.commit. destruct (flush _ _).
  - exists []. rewrite app_nil_r. split; [done|apply balanced_nil].
  - exists [Committed s]. split; [done|].
    intros s' Hs'. apply list_elem_of_singleton in Hs'. discriminate.
Qed.

Lemma tidy_with_Session {A} (body : nat → M A) :
  (∀ s, tidy (body s)) → tidy (Orm.with_Session body).
Proof.
  intros Hbody w. unfold Orm.with_Session. cbn.
  destruct (Hbody (next_session w) (Orm.Session w).2) as (evs & Hl & Hb).
  cbn in Hl. destruct (body _ _) as [r w2]. cbn in *.
  exists (Opened (next_session w) :: evs ++ [Closed (next_session w)]).
  rewrite Hl, <- !(assoc_L (++)). split; [done|].
  intros s Hs. apply elem_of_cons in Hs as [[= ->]|Hs].
  - apply elem_of_cons. right. apply elem_of_app. right.
    by apply list_elem_of_singleton.
  - apply elem_of_cons. right. apply elem_of_app.
    apply elem_of_app in Hs as [Hs|Hs]; [left; by apply Hb|].
    apply list_elem_of_singleton in Hs. discriminate.
Qed.

Lemma tidy_transactional origin session :
  (∀ s, tidy (origin s)) → tidy (transactional origin session).
Proof.
  intros Ho. unfold Repository.transactional.
  destruct session as [s|]; [apply Ho|].
  apply tidy_with_Session. intros s.
  apply tidy_bind; [apply Ho|]. intros res.
  apply tidy_bind; [apply tidy_commit|]. intros _.
  assert (∀ r, tidy (refresh s r)) as Hrefresh.
  { intros r. apply tidy_silent. intros w.
    by apply (preserves_refresh (λ w', log w' = log w)). }
  destruct (truthy res); [|apply tidy_ret].
  destruct res as [|r|l].
  - apply tidy_ret.
  - apply tidy_bind; [apply Hrefresh|]. intros r'. apply tidy_ret.
  - apply tidy_bind; [by apply tidy_for_each|]. intros l'. apply tidy_ret.
Qed.

(** X13. No operation of the repository leaves a session open: every
    session opened while it runs, by the decorator or by the lookup inside
    [delete], is closed when it is done, whether it returns or raises, with
    or without a session of the caller. *)
Theorem operations_close_their_sessions
    (session : option nat) (keys kwargs item : dict) :
  tidy (Repository.add self item session)
  ∧ tidy (Repository.get self keys session)
  ∧ tidy (Repository.find self session kwargs)
  ∧ tidy (Repository.delete self keys session)
  ∧ tidy (Repository.update self item session)
  ∧ tidy (Repository.patch self keys session kwargs).
Proof.
  assert (∀ I, session_blind I → ∀ s c, preserves I (Orm.record s c)) as Hrec
    by (intros; by apply preserves_record).
  assert (∀ w, session_blind (λ w' : world, log w' = log w)) as Hblind
    by (intros w w1 w2 _ Hl; congruence).
  assert (∀ k s', tidy (Repository.get self k s')) as Hget.
  { intros k s'. apply tidy_transactional. intros s. apply tidy_silent. intros w.
    apply (preserves_get_in_session (λ w', log w' = log w) k s w eq_refl). }
  split; [|split; [|split; [|split; [|split]]]]; try apply Hget.
  - apply tidy_transactional. intros s.
    apply tidy_bind; [|intros _; apply tidy_bind; [apply tidy_commit|]].
    + apply tidy_silent. intros w. by apply (Hrec _ (Hblind w)).
    + intros _. apply tidy_silent. intros w.
      apply (preserves_bind (λ w', log w' = log w)); [apply preserves_refresh| |done].
      intros r. apply preserves_ret.
  - apply tidy_transactional. intros s. apply tidy_silent. intros w.
    apply (preserves_find_in_session (λ w', log w' = log w) kwargs s w eq_refl).
  - apply tidy_transactional. intros s.
    apply tidy_bind; [apply Hget|]. intros [|r|l]; cbn [truthy].
    + apply tidy_raise.
    + apply tidy_silent. intros w.
      apply (preserves_bind (λ w', log w' = log w)); [by apply Hrec| |done].
      intros _. apply preserves_ret.
    + destruct (negb _); apply tidy_raise.
  - apply tidy_transactional. intros s. apply tidy_silent. intros w.
    by apply (preserves_update_body (λ w', log w' = log w) item s (Hblind w) w).
  - apply tidy_transactional. intros s. apply tidy_silent. intros w.
    by apply (preserves_patch_body (λ w', log w' = log w) keys kwargs s (Hblind w) w).
Qed.

(** *** [_get_keys_from_dict] *)

Lemma keys_comprehension_inr names (props acc d : dict) :
  Repository.keys_comprehension names props acc = inr d →
  Forall (λ k, is_Some (props !! k)) names
  ∧ ∀ k, d !! k = if decide (k ∈ names) then props !! k else acc !! k.
Proof.
  revert acc. induction names as [|k0 names IH]; intros acc; cbn [Repository.keys_comprehension].
  - intros [= <-]. split; [done|]. intros k.
    by destruct (decide _) as [H|_]; [apply elem_of_nil in H|].
  - destruct (props !! k0) as [v|] eqn:E; [|done]. intros H.
    destruct (IH _ H) as [Hall Hd]. split; [by constructor|].
    intros k. rewrite Hd. destruct (decide (k ∈ names)) as [Hin|Hnin].
    + by rewrite decide_True by (by apply elem_of_cons; right).
    + destruct (decide (k = k0)) as [->|Hne].
      * rewrite decide_True by (by apply elem_of_cons; left).
        by rewrite lookup_insert_eq.
      * rewrite decide_False by (by intros [?|?]%elem_of_cons).
        by rewrite lookup_insert_ne.
Qed.

Lemma keys_comprehension_inl names (props acc : dict) k :
  Repository.keys_comprehension names props acc = inl k →
  ∃ before after, names = before ++ k :: after
                  ∧ props !! k = None
                  ∧ Forall (λ k', is_Some (props !! k')) before.
Proof.
  revert acc. induction names as [|k0 names IH]; intros acc; cbn [Repository.keys_comprehension];
    [done|].
  destruct (props !! k0) as [v|] eqn:E.
  - intros H. destruct (IH _ H) as (before & after & -> & Hk & Hall).
    exists (k0 :: before), after. split; [done|]. split; [done|]. by constructor.
  - intros [= <-]. by exists [], names.
Qed.

Lemma keys_comprehension_total names (props acc : dict) :
  Forall (λ k, is_Some (props !! k)) names →
  ∃ d, Repository.keys_comprehension names props acc = inr d.
Proof.
  intros Hall. revert acc. induction Hall as [|k0 names [v Hv] _ IH]; intros acc;
    cbn [Repository.keys_comprehension]; [by eexists|].
  rewrite Hv. apply IH.
Qed.

(** X14. When [props] has a value for every primary-key attribute,
    [_get_keys_from_dict] returns the dictionary of exactly those
    attributes with the values of [props]: the key dictionary that
    [_get_keys_dict] computes from an instance with those attributes, and
    one that [get] accepts. *)
Theorem keys_from_dict_of_complete_props (props : dict) :
  NoDup (primary_key model) →
  Forall (λ k, is_Some (props !! k)) (primary_key model) →
  Repository._get_keys_from_dict self props
  = inr (Repository._get_keys_dict self props)
  ∧ valid_keys model (Repository._get_keys_dict self props)
  ∧ ∀ k, Repository._get_keys_dict self props !! k
         = if decide (k ∈ primary_key model) then props !! k else None.
Proof.
  intros Hnd Hall. unfold Repository._get_keys_from_dict.
  destruct (keys_comprehension_total _ props ∅ Hall) as [d Hd].
  destruct (keys_comprehension_inr _ _ _ _ Hd) as [_ Hlook].
  assert (∀ k, Repository._get_keys_dict self props !! k
               = if decide (k ∈ primary_key model) then props !! k else None) as Hk.
  { intros k. rewrite keys_dict_lookup. destruct (decide _) as [Hin|]; [|done].
    rewrite Forall_forall in Hall. destruct (Hall k Hin) as [v Hv].
    unfold attr. by rewrite Hv. }
  split; [|split; [by apply keys_dict_valid|done]].
  rewrite Hd. f_equal. apply map_eq. intros k. rewrite Hlook, Hk.
  by destruct (decide _).
Qed.

(** X15. When [props] lacks a primary-key attribute,
    [_get_keys_from_dict] fails with a [KeyError] naming the first such
    attribute in the order of the primary key, and otherwise it does not
    fail. *)
Theorem keys_from_dict_key_error (props : dict) :
  (∀ k, Repository._get_keys_from_dict self props = inl k →
        ∃ before after, primary_key model = before ++ k :: after
                        ∧ props !! k = None
                        ∧ Forall (λ k', is_Some (props !! k')) before)
  ∧ ((∃ k, k ∈ primary_key model ∧ props !! k = None) →
     ∃ k, Repository._get_keys_from_dict self props = inl k).
Proof.
  split.
  - intros k. apply keys_comprehension_inl.
  - intros (k & Hin & Hk). unfold Repository._get_keys_from_dict.
    destruct (Repository.keys_comprehension _ props ∅) as [k'|d] eqn:E; [by eexists|].
    destruct (keys_comprehension_inr _ _ _ _ E) as [Hall _].
    rewrite Forall_forall in Hall. destruct (Hall k Hin) as [v Hv]. congruence.
Qed.

(** *** More on single requests *)

(** X16. When the keys given to [patch] match more than one stored record,
    the [ValueError] that line 91 means to raise is never built: making
    its message fails first, with an [AttributeError] when one attribute
    is being set and a [TypeError] otherwise.  Nothing is changed. *)
Theorem patch_of_ambiguous_keys (keys kwargs : dict) (w : world) :
  filterable model keys →
  (1 < length (filter (Orm.matches (without_none keys)) (table w)))%nat →
  ∃ w', Repository.patch self keys None kwargs w
        = (Raise (if decide (size kwargs = 1%nat) then AttributeError else TypeError),
           w')
        ∧ table w' = table w.
Proof.
  intros Hf Hmany. unfold Repository.patch.
  erewrite transactional_raise; cycle 1.
  - rewrite run_bind, find_in_session by (done || apply pending_Session).
    change (table (Orm.Session w).2) with (table w).
    rewrite decide_True by done. reflexivity.
  - by eexists.
Qed.

(** X17. A PUT never adds a record, never removes one and never changes a
    primary key: the primary keys of the stored records are the same, in
    the same order, after any PUT, whether it returned or raised. *)
Theorem put_keeps_the_keys (body : dict) (w : world) :
  NoDup (primary_key model) →
  ident <$> table (Routes.default_put model self body w).2 = ident <$> table w.
Proof.
  intros Hnd.
  assert (table (Routes.default_put model self body w).2
          = table (Repository.update self (Orm.construct model body) None w).2) as ->.
  { unfold Routes.default_put. by destruct (Repository.update _ _ _ _) as [[?|?] ?]. }
  set (item := Orm.construct model body).
  destruct (select (ident item) (table w)) as [r|] eqn:Hsel.
  - destruct (select_Some _ _ _ Hsel) as [Hr _].
    pose proof (updated_ident item r Hr) as Hr'.
    destruct (update_outcome item w r Hnd Hsel) as (w' & E).
    destruct (decide _); [|destruct (violation _ _ _)];
      apply pair_equal_spec in E as [E1 E2]; rewrite E1; cbn [snd]; rewrite E2;
      try done.
    rewrite <- list_fmap_compose. apply list_fmap_ext. intros i x _. cbn.
    destruct (decide (ident x = ident r)) as [Ex|]; [|done].
    by rewrite Hr', Ex, Hr.
  - destruct (update_absent item w Hnd Hsel) as (w' & E & Ht & _).
    rewrite E. cbn [snd]. by rewrite Ht.
Qed.

(** X18. A GET by the primary key of a stored record returns that record
    and leaves the stored records unchanged. *)
Theorem get_returns_the_stored_record (kwargs r : dict) (w : world) :
  valid_keys model kwargs →
  unique_keys model (table w) →
  r ∈ table w → ident r = attr kwargs <$> primary_key model →
  ∃ w', Routes.default_get self kwargs w = (Body (RItem r), w')
        ∧ table w' = table w.
Proof.
  intros Hk Hu Hr Hid. unfold Routes.default_get.
  destruct (get_run kwargs w Hk) as (w' & -> & Ht & _).
  rewrite <- Hid, (select_unique _ r Hu Hr). by exists w'.
Qed.

Lemma filter_agree {A} (P Q : A → Prop)
    `{!∀ x, Decision (P x)} `{!∀ x, Decision (Q x)} (l : list A) :
  (∀ x, x ∈ l → P x ↔ Q x) → filter P l = filter Q l.
Proof.
  induction l as [|x l IH]; intros Hagree; [done|].
  rewrite !filter_cons.
  rewrite IH by (intros y Hy; apply Hagree; by apply elem_of_cons; right).
  destruct (decide (P x)) as [HP|HP].
  - by rewrite decide_True by (by apply Hagree; [apply elem_of_cons; left|]).
  - rewrite decide_False; [done|]. intros HQ. apply HP.
    by apply Hagree; [apply elem_of_cons; left|].
Qed.

(** X19. A DELETE by the primary key of a stored record removes that
    record and no other: the stored records afterwards are the ones there
    were, without it, in the same order. *)
Theorem delete_removes_only_that_record (kwargs r : dict) (w : world) :
  valid_keys model kwargs →
  unique_keys model (table w) →
  r ∈ table w → ident r = attr kwargs <$> primary_key model →
  ∃ w', Routes.default_delete self kwargs w = (Body RNone, w')
        ∧ table w' = filter (λ x, x ≠ r) (table w).
Proof.
  intros Hk Hu Hr Hid.
  assert (select (attr kwargs <$> primary_key model) (table w) = Some r) as Hsel
    by (rewrite <- Hid; by apply select_unique).
  destruct (delete_present kwargs w r Hk Hsel) as (w' & E & Ht & _).
  exists w'. unfold Routes.default_delete. rewrite E. split; [done|].
  rewrite Ht. apply filter_agree. intros x Hx. rewrite <- Hid. split.
  - intros Hne ->. by apply Hne.
  - intros Hne E'. apply Hne.
    pose proof (select_unique _ x Hu Hx) as H1. rewrite E' in H1.
    rewrite (select_unique _ r Hu Hr) in H1. by injection H1.
Qed.


End Facts.

(** * The heroes store as an instance *)

Section HeroesFacts.

Import Heroes.

Lemma hero_pk_enforced : pk_enforced hero hero_engine.
Proof.
  intros tbl r x Hx Hid. cbn. rewrite decide_True; [by eexists|].
  apply Exists_exists. by exists x.
Qed.

Ltac by_computation := apply (bool_decide_unpack _); vm_compute; exact I.

Lemma absent_key_is_404_witness :
  (∃ w', Routes.default_get heroes (key 3) (db [alice; bob])
         = (HTTPException 404 "Item not found", w')
         ∧ Web.raised_status (Routes.default_get heroes (key 3) (db [alice; bob])).1 = Some 404
         ∧ table w' = [alice; bob])
  ∧ (∃ w', Routes.default_delete heroes (key 3) (db [alice; bob])
           = (HTTPException 404 "Item not found", w')
           ∧ Web.raised_status (Routes.default_delete heroes (key 3) (db [alice; bob])).1 = Some 404
           ∧ table w' = [alice; bob]).
Proof.
  apply (absent_key_is_404 heroes (key 3) (db [alice; bob])).
  - by_computation.
  - apply Forall_forall. by_computation.
Defined.

Lemma get_after_delete_not_found_witness :
  ∃ w1, Repository.delete heroes (key 1) None (db [alice; bob]) = (Return RNone, w1)
        ∧ (∃ w2, Repository.get heroes (key 1) None w1 = (Return RNone, w2))
        ∧ (∃ w2, Routes.default_get heroes (key 1) w1
                 = (HTTPException 404 "Item not found", w2)).
Proof.
  apply (get_after_delete_not_found heroes (key 1) alice (db [alice; bob])).
  - by_computation.
  - by_computation.
  - vm_compute. reflexivity.
Defined.

Lemma rejected_post_is_409_witness :
  ∃ msg w',
    violation hero_engine [alice; bob] (Orm.construct hero bobby) = Some msg
    ∧ Routes.default_post hero heroes bobby (db [alice; bob])
      = (HTTPException 409 msg, w')
    ∧ table w' = [alice; bob].
Proof.
  apply (proj2 (rejected_post_is_409 heroes bobby (db [alice; bob]))
           hero_pk_enforced bob).
  - by_computation.
  - vm_compute. reflexivity.
Defined.

Lemma get_after_post_returns_created_witness :
  RItem carol = RItem (Orm.construct hero carol)
  ∧ Repository.add heroes (Orm.construct hero carol) None (db [alice; bob])
    = (Return (RItem carol),
       (Routes.default_post hero heroes carol (db [alice; bob])).2)
  ∧ (∃ w2, Repository.get heroes
             (Repository._get_keys_dict heroes (Orm.construct hero carol)) None
             (Routes.default_post hero heroes carol (db [alice; bob])).2
           = (Return (RItem carol), w2))
  ∧ (∃ w2, Routes.default_get heroes
             (Repository._get_keys_dict heroes (Orm.construct hero carol))
             (Routes.default_post hero heroes carol (db [alice; bob])).2
           = (Body (RItem carol), w2)).
Proof.
  apply (get_after_post_returns_created heroes carol (db [alice; bob])).
  - by_computation.
  - exact hero_pk_enforced.
  - vm_compute. reflexivity.
Defined.


Lemma get_after_put_reflects_update_witness :
  (∀ c, c ∈ attrs hero → attr bobby c = attr bobby c)
  ∧ (∃ w2, Repository.get heroes
             (Repository._get_keys_dict heroes (Orm.construct hero bobby)) None
             (Routes.default_put hero heroes bobby (db [alice; bob])).2
           = (Return (RItem bobby), w2))
  ∧ (∃ w2, Routes.default_get heroes
             (Repository._get_keys_dict heroes (Orm.construct hero bobby))
             (Routes.default_put hero heroes bobby (db [alice; bob])).2
           = (Body (RItem bobby), w2)).
Proof.
  apply (get_after_put_reflects_update heroes bobby bobby (db [alice; bob])).
  - by_computation.
  - vm_compute. reflexivity.
Defined.

Lemma find_returns_exactly_the_matching_witness :
  ∃ l w',
    Repository.find heroes None {[ "name" := VStr "bob"; "age" := VNone ]}
      (db [alice; bob]) = (Return (RList l), w')
    ∧ Routes.default_find heroes {[ "name" := VStr "bob"; "age" := VNone ]}
        (db [alice; bob]) = (Body (RList l), w')
    ∧ ∀ r, r ∈ l ↔
           r ∈ [alice; bob]
           ∧ ∀ k v, ({[ "name" := VStr "bob"; "age" := VNone ]} : dict) !! k = Some v →
                    v ≠ VNone → attr r k = v.
Proof.
  apply (find_returns_exactly_the_matching heroes
           {[ "name" := VStr "bob"; "age" := VNone ]} (db [alice; bob])).
  - by_computation.
  - by_computation.
Defined.

Lemma find_ignores_none_parameters_witness :
  ∃ w', Repository.find heroes None {[ "name" := VNone; "age" := VNone ]}
          (db [alice; bob]) = (Return (RList [alice; bob]), w')
        ∧ Routes.default_find heroes {[ "name" := VNone; "age" := VNone ]}
            (db [alice; bob]) = (Body (RList [alice; bob]), w').
Proof.
  apply (proj2 (find_ignores_none_parameters heroes
                  {[ "name" := VNone; "age" := VNone ]} (db [alice; bob]))).
  - by_computation.
  - by_computation.
Defined.

(** C1. The PATCH of a key that matches no stored record is not answered
    with 404: the handler fails with an [IndexError] that nothing catches,
    which the framework turns into a 500; the stored records are left as
    they were. *)
Theorem patch_of_absent_key_is_500 :
  (Routes.default_patch heroes (key 3) {[ "name" := VStr "carol" ]}
     (db [alice; bob])).1 = Unhandled IndexError
  ∧ Web.raised_status
      (Routes.default_patch heroes (key 3) {[ "name" := VStr "carol" ]}
         (db [alice; bob])).1 = Some 500
  ∧ table (Routes.default_patch heroes (key 3) {[ "name" := VStr "carol" ]}
             (db [alice; bob])).2 = [alice; bob].
Proof. vm_compute. repeat split; reflexivity. Qed.

(** C8. Deleting a stored record without supplying a session opens two
    sessions, not one: the decorator's, and another one for the lookup
    inside [delete], which is committed and closed before the first one
    does anything. *)
Theorem delete_opens_a_second_session :
  log (Repository.delete heroes (key 1) None (db [alice; bob])).2
  = [Opened 0%nat; Opened 1%nat; Committed 1%nat; Closed 1%nat;
     Committed 0%nat; Closed 0%nat]
  ∧ opened_sessions
      (log (Repository.delete heroes (key 1) None (db [alice; bob])).2)
    = [0%nat; 1%nat].
Proof. vm_compute. split; reflexivity. Qed.

Lemma operations_keep_keys_unique_witness :
  unique_keys hero (table (Repository.add heroes carol None (db [alice; bob])).2)
  ∧ unique_keys hero (table (Repository.get heroes (key 1) None (db [alice; bob])).2)
  ∧ unique_keys hero
      (table (Repository.find heroes None {[ "name" := VStr "bob" ]}
                (db [alice; bob])).2)
  ∧ unique_keys hero
      (table (Repository.delete heroes (key 1) None (db [alice; bob])).2)
  ∧ unique_keys hero
      (table (Repository.update heroes carol None (db [alice; bob])).2)
  ∧ unique_keys hero
      (table (Repository.patch heroes (key 1) None {[ "name" := VStr "bob" ]}
                (db [alice; bob])).2).
Proof.
  apply (operations_keep_keys_unique heroes None (key 1) {[ "name" := VStr "bob" ]}
           carol (db [alice; bob])).
  - exact hero_pk_enforced.
  - by_computation.
Defined.

Lemma patch_sets_the_given_fields_witness :
  (∀ c, attr (mk_hero 2 "bob" (VInt 41)) c
        = match ({[ "age" := VInt 41; "name" := VNone ]} : dict) !! c with
          | Some v => if decide (v ≠ VNone ∧ c ∈ attrs hero) then v else attr bob c
          | None => attr bob c
          end)
  ∧ table (Routes.default_patch heroes (key 2)
             {[ "age" := VInt 41; "name" := VNone ]} (db [alice; bob])).2
    = (λ x, if decide (x = bob) then mk_hero 2 "bob" (VInt 41) else x)
        <$> [alice; bob]
  ∧ ∃ w2, Routes.default_get heroes (key 2)
            (Routes.default_patch heroes (key 2)
               {[ "age" := VInt 41; "name" := VNone ]} (db [alice; bob])).2
          = (Body (RItem (mk_hero 2 "bob" (VInt 41))), w2).
Proof.
  apply (patch_sets_the_given_fields heroes (key 2)
           {[ "age" := VInt 41; "name" := VNone ]} bob
           (mk_hero 2 "bob" (VInt 41)) (db [alice; bob])).
  - by_computation.
  - by_computation.
  - by_computation.
  - by_computation.
  - by_computation.
  - by_computation.
  - vm_compute. reflexivity.
  - apply Forall_forall. by_computation.
  - vm_compute. reflexivity.
Defined.

Lemma empty_patch_changes_nothing_witness :
  ∃ w', Routes.default_patch heroes (key 2) {[ "name" := VNone ]} (db [alice; bob])
        = (Body (RItem bob), w')
        ∧ table w' = [alice; bob].
Proof.
  apply (empty_patch_changes_nothing heroes (key 2) {[ "name" := VNone ]} bob
           (db [alice; bob])).
  - by_computation.
  - by_computation.
  - by_computation.
  - by_computation.
  - by_computation.
  - by_computation.
  - vm_compute. reflexivity.
  - by_computation.
Defined.

Lemma rejected_put_is_500_witness :
  ∃ w', Routes.default_put hero named_heroes bob_as_alice (db [alice; bob])
        = (Unhandled (IntegrityError "UNIQUE constraint failed: hero.name"), w')
        ∧ Web.raised_status
            (Routes.default_put hero named_heroes bob_as_alice (db [alice; bob])).1
          = Some 500
        ∧ table w' = [alice; bob].
Proof.
  apply (rejected_put_is_500 named_heroes bob_as_alice bob
           "UNIQUE constraint failed: hero.name" (db [alice; bob])).
  - by_computation.
  - vm_compute. reflexivity.
  - by_computation.
  - vm_compute. reflexivity.
Defined.

Lemma put_is_idempotent_witness :
  ∃ w2, Routes.default_put hero heroes bobby
          (Routes.default_put hero heroes bobby (db [alice; bob])).2
        = (Body (RItem bobby), w2)
        ∧ table w2 = table (Routes.default_put hero heroes bobby (db [alice; bob])).2.
Proof.
  apply (put_is_idempotent heroes bobby bobby (db [alice; bob])).
  - by_computation.
  - vm_compute. reflexivity.
Defined.

Lemma delete_undoes_post_witness :
  ∃ w2, Routes.default_delete heroes
          (Repository._get_keys_dict heroes (Orm.construct hero carol))
          (Routes.default_post hero heroes carol (db [alice; bob])).2
        = (Body RNone, w2)
        ∧ table w2 = [alice; bob].
Proof.
  apply (delete_undoes_post heroes carol (db [alice; bob]) _ (RItem carol)).
  - by_computation.
  - exact hero_pk_enforced.
  - vm_compute. reflexivity.
Defined.

Lemma second_post_is_409_witness :
  ∃ msg w2, Routes.default_post hero heroes carol
              (Routes.default_post hero heroes carol (db [alice; bob])).2
            = (HTTPException 409 msg, w2)
            ∧ table w2 = table (Routes.default_post hero heroes carol (db [alice; bob])).2.
Proof.
  apply (second_post_is_409 heroes carol (db [alice; bob]) _ (RItem carol)).
  - exact hero_pk_enforced.
  - vm_compute. reflexivity.
Defined.

Lemma second_delete_is_404_witness :
  ∃ w2, Routes.default_delete heroes (key 1)
          (Routes.default_delete heroes (key 1) (db [alice; bob])).2
        = (HTTPException 404 "Item not found", w2)
        ∧ table w2 = table (Routes.default_delete heroes (key 1) (db [alice; bob])).2.
Proof.
  apply (second_delete_is_404 heroes (key 1) (db [alice; bob]) _ RNone).
  - by_computation.
  - vm_compute. reflexivity.
Defined.

Lemma find_by_key_agrees_with_get_witness :
  ∃ w2, Repository.find heroes None (key 2) (db [alice; bob])
        = (Return (RList [bob]), w2).
Proof.
  apply (find_by_key_agrees_with_get heroes (key 2) (db [alice; bob])
           (Repository.get heroes (key 2) None (db [alice; bob])).2 (RItem bob)).
  - by_computation.
  - by_computation.
  - by_computation.
  - by_computation.
  - by_computation.
  - vm_compute. reflexivity.
Defined.



Lemma keys_from_dict_of_complete_props_witness :
  Repository._get_keys_from_dict heroes alice
  = inr (Repository._get_keys_dict heroes alice)
  ∧ valid_keys hero (Repository._get_keys_dict heroes alice)
  ∧ ∀ k, Repository._get_keys_dict heroes alice !! k
         = if decide (k ∈ primary_key hero) then alice !! k else None.
Proof.
  apply (keys_from_dict_of_complete_props heroes alice).
  - by_computation.
  - by_computation.
Defined.

Lemma keys_from_dict_key_error_witness :
  ∃ k, Repository._get_keys_from_dict heroes {[ "name" := VStr "dave" ]} = inl k.
Proof.
  apply (proj2 (keys_from_dict_key_error heroes {[ "name" := VStr "dave" ]})).
  exists "id". split; [by_computation|vm_compute; reflexivity].
Defined.

Lemma patch_of_ambiguous_keys_witness :
  ∃ w', Repository.patch heroes ∅ None {[ "name" := VStr "zed" ]} (db [alice; bob])
        = (Raise (if decide (size ({[ "name" := VStr "zed" ]} : dict) = 1%nat)
                  then AttributeError else TypeError), w')
        ∧ table w' = [alice; bob].
Proof.
  apply (patch_of_ambiguous_keys heroes ∅ {[ "name" := VStr "zed" ]}
           (db [alice; bob])).
  - by_computation.
  - by_computation.
Defined.

Lemma put_keeps_the_keys_witness :
  Orm.primary_key_from_instance hero
    <$> table (Routes.default_put hero heroes bobby (db [alice; bob])).2
  = Orm.primary_key_from_instance hero <$> [alice; bob].
Proof.
  apply (put_keeps_the_keys heroes bobby (db [alice; bob])). by_computation.
Defined.

Lemma get_returns_the_stored_record_witness :
  ∃ w', Routes.default_get heroes (key 2) (db [alice; bob]) = (Body (RItem bob), w')
        ∧ table w' = [alice; bob].
Proof.
  apply (get_returns_the_stored_record heroes (key 2) bob (db [alice; bob])).
  - by_computation.
  - by_computation.
  - by_computation.
  - vm_compute. reflexivity.
Defined.

Lemma delete_removes_only_that_record_witness :
  ∃ w', Routes.default_delete heroes (key 2) (db [alice; bob]) = (Body RNone, w')
        ∧ table w' = filter (λ x, x ≠ bob) [alice; bob].
Proof.
  apply (delete_removes_only_that_record heroes (key 2) bob (db [alice; bob])).
  - by_computation.
  - by_computation.
  - by_computation.
  - vm_compute. reflexivity.
Defined.


End HeroesFacts.
